(** * fireschema-ts-client-runtime: builders and collection resolver

    A shallow embedding of the three runtime classes of the package,

      - [ClientBaseQueryBuilder]   (baseQueryBuilder.ts),
      - [ClientBaseUpdateBuilder]  (baseUpdateBuilder.ts),
      - [ClientBaseCollectionRef]  (baseCollection.ts),

    together with the properties their specification states about them.

    Conventions of the embedding.

      - A JavaScript object used as a string-keyed record ([DocumentData],
        [SetOptions], [Record<string, any>]) is a [gmap string value] of its
        own properties.  Such an object inherits from [Object.prototype]:
        reading [o[k]] and testing [k in o] find the own property first and
        the member of [Object.prototype] of that name otherwise ([Js.read],
        [Js.has]); a spread, [Object.keys] and [for ... in] see the own
        properties only, the members of [Object.prototype] not being
        enumerable.
      - Builder instances and the arrays and records they own live in a heap
        indexed by locations, so that object identity and aliasing are
        visible.
      - Every call of a function imported from 'firebase/firestore', every
        [console.warn] and every [new] of a schema-supplied class is appended
        to a log.  Factory functions of the SDK return the term that names
        the call; what the remote store answers to a round trip is given by a
        [Store] instance.
      - A method is a function of the world (heap and log) to an outcome and a
        world.  For an [async] method the outcome is the settlement of the
        promise it returns.

    What the embedding leaves out.

      - Prototypes other than [Object.prototype]: payloads, options and
        schemas are plain objects.
      - The argument checks of the SDK: [collection], [doc] and the constraint
        and sentinel factories are total.
      - The arithmetic of JavaScript numbers: numbers are integers here, and
        the package passes them on without computing with them. *)

From stdpp Require Import gmap strings list fin_maps.

Set Warnings "-register-all".

(** ** JavaScript values *)

Module Js.

(** Values a document field, a cursor anchor or a default directive may hold.
    Numbers are carried around but never computed with.  [VHost] stands for
    any other host object ([Date], [Timestamp], a document snapshot, a nested
    map), told apart by a tag. *)
Inductive value : Type :=
| VUndefined
| VNull
| VBool (b : bool)
| VNumber (n : Z)
| VString (s : string)
| VArray (elements : list value)
| VHost (tag : positive)
| VFieldValue (sentinel : FieldValue)

(** The sentinels of the SDK: the results of [serverTimestamp()],
    [increment(n)], [arrayUnion(...)], [arrayRemove(...)], [deleteField()]. *)
with FieldValue : Type :=
| serverTimestamp_
| increment_ (n : Z)
| arrayUnion_ (elements : list value)
| arrayRemove_ (elements : list value)
| deleteField_.

(** [v === undefined] *)
Definition is_undefined (v : value) : bool :=
  match v with VUndefined => true | _ => false end.

(** [v === s] for a string literal [s] *)
Definition strict_eq_string (v : value) (s : string) : bool :=
  match v with VString s' => bool_decide (s' = s) | _ => false end.

(** [v === true] *)
Definition strict_eq_true (v : value) : bool :=
  match v with VBool true => true | _ => false end.

(** The names of the members of [Object.prototype], which every plain
    object inherits (ECMAScript, with its annex B). *)
Definition Object_prototype_names : list string :=
  [ "constructor"; "hasOwnProperty"; "isPrototypeOf"; "propertyIsEnumerable";
    "toLocaleString"; "toString"; "valueOf"; "__proto__";
    "__defineGetter__"; "__defineSetter__";
    "__lookupGetter__"; "__lookupSetter__" ].

(** The member of [Object.prototype] of a given name, if there is one: a
    built-in function, or [Object.prototype] itself for [__proto__].  It is
    a host object, and never [undefined]. *)
Definition Object_prototype (k : string) : option value :=
  if bool_decide (k ∈ Object_prototype_names) then Some (VHost (encode k))
  else None.

(** The own property [k] of [o], [undefined] when [o] has none. *)
Definition get (o : gmap string value) (k : string) : value :=
  default VUndefined (o !! k).

(** [o[k]] on a plain object: the own property if there is one, else the
    inherited member, else [undefined]. *)
Definition read (o : gmap string value) (k : string) : value :=
  match o !! k with
  | Some v => v
  | None => default VUndefined (Object_prototype k)
  end.

(** [k in o] on a plain object. *)
Definition has (o : gmap string value) (k : string) : bool :=
  bool_decide (is_Some (o !! k)) || bool_decide (is_Some (Object_prototype k)).

(** [Object.keys(o)] *)
Definition Object_keys (o : gmap string value) : list string :=
  (map_to_list o).*1.

End Js.

(** ** The SDK: handles, native constraints, calls *)

Module Sdk.
Import Js.

(** The database handle. *)
Record Firestore : Type := firestore_of { app_name : string }.

(** [collection(firestore, path)], [collection(parentRef, path)] and
    [doc(ref, id)]: a reference is named by the calls that built it. *)
Inductive CollectionReference : Type :=
| collection_root (firestore : Firestore) (path : string)
| collection_sub (parentRef : DocumentReference) (path : string)
with DocumentReference : Type :=
| doc_ (ref : CollectionReference) (id : string).

Inductive WhereFilterOp : Type :=
| op_lt | op_le | op_eq | op_ne | op_ge | op_gt
| op_array_contains | op_in | op_array_contains_any | op_not_in.

Inductive OrderByDirection : Type := asc | desc.

(** The native constraints, one per factory of the SDK. *)
Inductive QueryConstraint : Type :=
| where_ (fieldPath : string) (opStr : WhereFilterOp) (v : value)
| orderBy_ (fieldPath : string) (directionStr : OrderByDirection)
| limit_ (n : Z)
| limitToLast_ (n : Z)
| startAt_ (anchor : value) (fieldValues : list value)
| startAfter_ (anchor : value) (fieldValues : list value)
| endAt_ (anchor : value) (fieldValues : list value)
| endBefore_ (anchor : value) (fieldValues : list value).

(** [query(ref, ...constraints)] *)
Record Query : Type := query_ {
  query_source : CollectionReference;
  query_constraints : list QueryConstraint
}.

(** What [getDoc] resolves to: [exists()] and [data()]. *)
Record DocumentSnapshot : Type := {
  snapshot_exists : bool;
  snapshot_data : option (gmap string value)
}.

(** What [getDocs] resolves to: [docs], each with its [data()]. *)
Record QueryDocumentSnapshot : Type := {
  data_of : gmap string value
}.

Record QuerySnapshot : Type := {
  docs : list QueryDocumentSnapshot
}.

End Sdk.

(** ** Schemas *)

Module Schema.
Import Js.

(** [interface FieldSchema { defaultValue?: any }]: an absent directive reads
    as [undefined]. *)
Record FieldSchema : Type := { defaultValue : value }.

(** A class handed over in a schema as [collectionClass]: a subclass of
    [ClientBaseCollectionRef] whose constructor passes its four arguments on
    to the base constructor. *)
Record CollectionClass : Type := { class_name : string }.

(** [interface CollectionSchema].  [subCollections] is optional, and so is the
    [schema] of an entry; [collectionClass] is [any]: [None] stands for a
    missing or otherwise falsy one. *)
Inductive CollectionSchema : Type := {
  fields : gmap string FieldSchema;
  subCollections : option (gmap string SubCollectionDef)
}
with SubCollectionDef : Type := {
  schema : option CollectionSchema;
  collectionClass : option CollectionClass
}.

End Schema.

(** ** Worlds, outcomes and the method monad *)

Module Runtime.
Import Js Sdk Schema.

(** The constraint model of baseQueryBuilder.ts: the four interfaces
    [WhereConstraint], [OrderByConstraint], [LimitConstraint] and
    [CursorConstraint], each with the [type] tags it allows. *)
Inductive LimitType : Type := type_limit | type_limitToLast.

Inductive CursorType : Type :=
| type_startAt | type_startAfter | type_endAt | type_endBefore.

Inductive QueryConstraintDefinition : Type :=
| WhereConstraint (fieldPath : string) (opStr : WhereFilterOp) (v : value)
| OrderByConstraint (fieldPath : string) (directionStr : OrderByDirection)
| LimitConstraint (type : LimitType) (limitCount : Z)
| CursorConstraint (type : CursorType) (snapshotOrFieldValue : value)
    (fieldValues : list value).

Definition loc : Type := positive.

(** Own properties of the instances of the three classes.  A property that
    holds an array or a record holds its location. *)
Record QueryBuilderObject : Type := {
  qb_firestore : Firestore;
  qb_collectionRef : CollectionReference;
  qb_constraintDefinitions : loc
}.

Record UpdateBuilderObject : Type := {
  ub_docRef : DocumentReference;
  ub_updateData : loc
}.

Record CollectionRefObject : Type := {
  cr_class : option CollectionClass;
  cr_ref : CollectionReference;
  cr_firestore : Firestore;
  cr_collectionId : string;
  cr_schema : option CollectionSchema
}.

Inductive Cell : Type :=
| CellArray (definitions : list QueryConstraintDefinition)
| CellRecord (props : gmap string value)
| CellQueryBuilder (o : QueryBuilderObject)
| CellUpdateBuilder (o : UpdateBuilderObject)
| CellCollectionRef (o : CollectionRefObject).

(** What is thrown, or what a promise is rejected with. *)
Inductive Exn : Type :=
| Error (message : string)
| TypeError (message : string)
| StoreError (code : string).

Inductive Outcome (A : Type) : Type :=
| Return (a : A)
| Throw (e : Exn).
Arguments Return {A} a.
Arguments Throw {A} e.

Inductive Event : Type :=
| call_collection (r : CollectionReference)
| call_doc (d : DocumentReference)
| call_constraint (c : QueryConstraint)
| call_query (q : Query)
| call_fieldValue (f : FieldValue)
| call_addDoc (r : CollectionReference) (data : gmap string value)
| call_setDoc (d : DocumentReference) (data options : gmap string value)
| call_deleteDoc (d : DocumentReference)
| call_getDoc (d : DocumentReference)
| call_getDocs (q : Query)
| call_updateDoc (d : DocumentReference) (data : gmap string value)
| console_warn (message : string)
| call_new (cls : CollectionClass) (firestore : Firestore)
    (collectionId : string) (schema : option CollectionSchema)
    (parentRef : option DocumentReference).

Record World : Type := {
  heap : gmap loc Cell;
  log : list Event
}.

Definition M (A : Type) : Type := World → Outcome A * World.

(** The settlement of the promise of an [async] method: [Return v] when it
    resolves with [v], [Throw e] when it rejects with [e]. *)
Definition Async (A : Type) : Type := M A.

#[global] Instance M_ret : MRet M := λ A a w, (Return a, w).

#[global] Instance M_bind : MBind M := λ A B k m w,
  match m w with
  | (Return a, w') => k a w'
  | (Throw e, w') => (Throw e, w')
  end.

Definition throw {A : Type} (e : Exn) : M A := λ w, (Throw e, w).

Definition emit (e : Event) : M unit := λ w,
  (Return (), {| heap := heap w; log := log w ++ [e] |}).

(** A new object gets a location the heap does not use yet. *)
Definition alloc (c : Cell) : M loc := λ w,
  let l := fresh (dom (heap w)) in
  (Return l, {| heap := <[l := c]> (heap w); log := log w |}).

Definition load (l : loc) : M Cell := λ w,
  match heap w !! l with
  | Some c => (Return c, w)
  | None => (Throw (TypeError "not an object"), w)
  end.

Definition store (l : loc) (c : Cell) : M unit := λ w,
  (Return (), {| heap := <[l := c]> (heap w); log := log w |}).

Definition load_array (l : loc) : M (list QueryConstraintDefinition) :=
  c ← load l;
  match c with
  | CellArray defs => mret defs
  | _ => throw (TypeError "not iterable")
  end.

Definition load_record (l : loc) : M (gmap string value) :=
  c ← load l;
  match c with
  | CellRecord props => mret props
  | _ => throw (TypeError "not a record")
  end.

Definition load_queryBuilder (l : loc) : M QueryBuilderObject :=
  c ← load l;
  match c with
  | CellQueryBuilder o => mret o
  | _ => throw (TypeError "not a query builder")
  end.

Definition load_updateBuilder (l : loc) : M UpdateBuilderObject :=
  c ← load l;
  match c with
  | CellUpdateBuilder o => mret o
  | _ => throw (TypeError "not an update builder")
  end.

Definition load_collectionRef (l : loc) : M CollectionRefObject :=
  c ← load l;
  match c with
  | CellCollectionRef o => mret o
  | _ => throw (TypeError "not a collection reference")
  end.

(** [for (x of xs) ...] with an accumulator, and [xs.map(f)]. *)
Fixpoint foldM {A B : Type} (f : B → A → M B) (b : B) (xs : list A) : M B :=
  match xs with
  | [] => mret b
  | x :: xs' => b' ← f b x; foldM f b' xs'
  end.

Fixpoint mapM {A B : Type} (f : A → M B) (xs : list A) : M (list B) :=
  match xs with
  | [] => mret []
  | x :: xs' => y ← f x; ys ← mapM f xs'; mret (y :: ys)
  end.

(** The remote store, as far as this package sees it: the [id] getter of a
    collection reference, and the settlement of every round trip, which may
    depend on all that was logged before. *)
Class Store : Type := {
  collection_id : CollectionReference → string;
  addDoc_response :
    list Event → CollectionReference → gmap string value →
    Outcome DocumentReference;
  setDoc_response :
    list Event → DocumentReference → gmap string value → gmap string value →
    Outcome unit;
  deleteDoc_response : list Event → DocumentReference → Outcome unit;
  getDoc_response : list Event → DocumentReference → Outcome DocumentSnapshot;
  getDocs_response : list Event → Query → Outcome QuerySnapshot;
  updateDoc_response :
    list Event → DocumentReference → gmap string value → Outcome unit
}.

(** A factory of the SDK: the call is logged and names its own result. *)
Definition factory {A : Type} (e : A → Event) (a : A) : M A :=
  _ ← emit (e a); mret a.

(** A round trip: the call is logged and settles as the store says. *)
Definition round_trip {A : Type} (e : Event) (r : list Event → Outcome A)
  : Async A := λ w,
  (r (log w), {| heap := heap w; log := log w ++ [e] |}).

Section sdk.
Context {remote : Store}.

Definition sdk_collection_root fs path :=
  factory call_collection (collection_root fs path).
Definition sdk_collection_sub parentRef path :=
  factory call_collection (collection_sub parentRef path).
Definition sdk_doc ref id := factory call_doc (doc_ ref id).

Definition sdk_where fieldPath opStr v :=
  factory call_constraint (where_ fieldPath opStr v).
Definition sdk_orderBy fieldPath directionStr :=
  factory call_constraint (orderBy_ fieldPath directionStr).
Definition sdk_limit n := factory call_constraint (limit_ n).
Definition sdk_limitToLast n := factory call_constraint (limitToLast_ n).
Definition sdk_startAt a vs := factory call_constraint (startAt_ a vs).
Definition sdk_startAfter a vs := factory call_constraint (startAfter_ a vs).
Definition sdk_endAt a vs := factory call_constraint (endAt_ a vs).
Definition sdk_endBefore a vs := factory call_constraint (endBefore_ a vs).
Definition sdk_query ref cs := factory call_query (query_ ref cs).

Definition sdk_serverTimestamp := factory call_fieldValue serverTimestamp_.
Definition sdk_increment n := factory call_fieldValue (increment_ n).
Definition sdk_arrayUnion vs := factory call_fieldValue (arrayUnion_ vs).
Definition sdk_arrayRemove vs := factory call_fieldValue (arrayRemove_ vs).
Definition sdk_deleteField := factory call_fieldValue deleteField_.

Definition sdk_addDoc ref data : Async DocumentReference :=
  round_trip (call_addDoc ref data) (λ h, addDoc_response h ref data).
Definition sdk_setDoc d data options : Async unit :=
  round_trip (call_setDoc d data options)
    (λ h, setDoc_response h d data options).
Definition sdk_deleteDoc d : Async unit :=
  round_trip (call_deleteDoc d) (λ h, deleteDoc_response h d).
Definition sdk_getDoc d : Async DocumentSnapshot :=
  round_trip (call_getDoc d) (λ h, getDoc_response h d).
Definition sdk_getDocs q : Async QuerySnapshot :=
  round_trip (call_getDocs q) (λ h, getDocs_response h q).
Definition sdk_updateDoc d data : Async unit :=
  round_trip (call_updateDoc d data) (λ h, updateDoc_response h d data).

Definition console_dot_warn (message : string) : M unit :=
  emit (console_warn message).
End sdk.

End Runtime.

(** ** baseQueryBuilder.ts *)

Module ClientBaseQueryBuilder.
Import Js Sdk Schema Runtime.

Section methods.
Context {remote : Store}.

(** [new ClientBaseQueryBuilder(firestore, collectionRef)]; the field
    initialiser gives the instance an empty array of its own. *)
Definition new (firestore : Firestore) (collectionRef : CollectionReference)
  : M loc :=
  constraintDefinitions ← alloc (CellArray []);
  alloc (CellQueryBuilder {|
    qb_firestore := firestore;
    qb_collectionRef := collectionRef;
    qb_constraintDefinitions := constraintDefinitions |}).

(** [Object.create] and [Object.assign] give a new instance with the own
    properties of [this]; its [constraintDefinitions] is then set to a new
    array, the old one spread and followed by [definition]. *)
Definition addConstraintDefinition (this : loc)
  (definition : QueryConstraintDefinition) : M loc :=
  o ← load_queryBuilder this;
  newBuilder ← alloc (CellQueryBuilder o);
  old ← load_array (qb_constraintDefinitions o);
  constraintDefinitions ← alloc (CellArray (old ++ [definition]));
  _ ← store newBuilder (CellQueryBuilder {|
    qb_firestore := qb_firestore o;
    qb_collectionRef := qb_collectionRef o;
    qb_constraintDefinitions := constraintDefinitions |});
  mret newBuilder.

Definition _where (this : loc) (fieldPath : string) (opStr : WhereFilterOp)
  (v : value) : M loc :=
  addConstraintDefinition this (WhereConstraint fieldPath opStr v).

(** [directionStr] defaults to ['asc'] when the argument is left out. *)
Definition orderBy (this : loc) (fieldPath : string)
  (directionStr : option OrderByDirection) : M loc :=
  addConstraintDefinition this
    (OrderByConstraint fieldPath (default asc directionStr)).

Definition limit (this : loc) (limitCount : Z) : M loc :=
  addConstraintDefinition this (LimitConstraint type_limit limitCount).

Definition limitToLast (this : loc) (limitCount : Z) : M loc :=
  addConstraintDefinition this (LimitConstraint type_limitToLast limitCount).

Definition startAt (this : loc) (snapshotOrFieldValue : value)
  (fieldValues : list value) : M loc :=
  addConstraintDefinition this
    (CursorConstraint type_startAt snapshotOrFieldValue fieldValues).

Definition startAfter (this : loc) (snapshotOrFieldValue : value)
  (fieldValues : list value) : M loc :=
  addConstraintDefinition this
    (CursorConstraint type_startAfter snapshotOrFieldValue fieldValues).

Definition endBefore (this : loc) (snapshotOrFieldValue : value)
  (fieldValues : list value) : M loc :=
  addConstraintDefinition this
    (CursorConstraint type_endBefore snapshotOrFieldValue fieldValues).

Definition endAt (this : loc) (snapshotOrFieldValue : value)
  (fieldValues : list value) : M loc :=
  addConstraintDefinition this
    (CursorConstraint type_endAt snapshotOrFieldValue fieldValues).

(** The arrow function of [buildQuery]: the [switch] on [def.type].  Its
    [default] branch needs a tag outside [ConstraintType], which the type of
    definitions rules out. *)
Definition toClientConstraint (def : QueryConstraintDefinition)
  : M QueryConstraint :=
  match def with
  | WhereConstraint fieldPath opStr v => sdk_where fieldPath opStr v
  | OrderByConstraint fieldPath directionStr =>
      sdk_orderBy fieldPath directionStr
  | LimitConstraint type_limit limitCount => sdk_limit limitCount
  | LimitConstraint type_limitToLast limitCount => sdk_limitToLast limitCount
  | CursorConstraint type_startAt a vs => sdk_startAt a vs
  | CursorConstraint type_startAfter a vs => sdk_startAfter a vs
  | CursorConstraint type_endAt a vs => sdk_endAt a vs
  | CursorConstraint type_endBefore a vs => sdk_endBefore a vs
  end.

Definition buildQuery (this : loc) : M Query :=
  o ← load_queryBuilder this;
  defs ← load_array (qb_constraintDefinitions o);
  clientConstraints ← mapM toClientConstraint defs;
  sdk_query (qb_collectionRef o) clientConstraints.

Definition getSnapshot (this : loc) : Async QuerySnapshot :=
  q ← buildQuery this;
  sdk_getDocs q.

Definition get (this : loc) : Async (list (gmap string value)) :=
  snapshot ← getSnapshot this;
  mret (data_of <$> docs snapshot).

End methods.

(** A call of one of the eight chain methods, with its arguments. *)
Inductive ChainCall : Type :=
| call__where (fieldPath : string) (opStr : WhereFilterOp) (v : value)
| call_orderBy (fieldPath : string) (directionStr : option OrderByDirection)
| call_limit (limitCount : Z)
| call_limitToLast (limitCount : Z)
| call_startAt (snapshotOrFieldValue : value) (fieldValues : list value)
| call_startAfter (snapshotOrFieldValue : value) (fieldValues : list value)
| call_endAt (snapshotOrFieldValue : value) (fieldValues : list value)
| call_endBefore (snapshotOrFieldValue : value) (fieldValues : list value).

Definition invoke (this : loc) (m : ChainCall) : M loc :=
  match m with
  | call__where fieldPath opStr v => _where this fieldPath opStr v
  | call_orderBy fieldPath directionStr => orderBy this fieldPath directionStr
  | call_limit limitCount => limit this limitCount
  | call_limitToLast limitCount => limitToLast this limitCount
  | call_startAt a vs => startAt this a vs
  | call_startAfter a vs => startAfter this a vs
  | call_endAt a vs => endAt this a vs
  | call_endBefore a vs => endBefore this a vs
  end.

(** [b.m1(...).m2(...)...] *)
Definition chain (this : loc) (ms : list ChainCall) : M loc :=
  foldM invoke this ms.

(** The native constraint a definition stands for, variant by variant, as the
    specification words the translation: a filter becomes a [where], an
    ordering an [orderBy], a limit a [limit] or a [limitToLast], a cursor the
    cursor constraint of its kind. *)
Definition translation (c : QueryConstraintDefinition) : QueryConstraint :=
  match c with
  | WhereConstraint fieldPath opStr v => where_ fieldPath opStr v
  | OrderByConstraint fieldPath directionStr => orderBy_ fieldPath directionStr
  | LimitConstraint type_limit n => limit_ n
  | LimitConstraint type_limitToLast n => limitToLast_ n
  | CursorConstraint type_startAt a vs => startAt_ a vs
  | CursorConstraint type_startAfter a vs => startAfter_ a vs
  | CursorConstraint type_endAt a vs => endAt_ a vs
  | CursorConstraint type_endBefore a vs => endBefore_ a vs
  end.

(** The constraint sequence a builder holds, read through the heap. *)
Definition constraints_of (w : World) (b : loc)
  : option (list QueryConstraintDefinition) :=
  match heap w !! b with
  | Some (CellQueryBuilder o) =>
      match heap w !! qb_constraintDefinitions o with
      | Some (CellArray defs) => Some defs
      | _ => None
      end
  | _ => None
  end.

(** The definition a chain call appends: what each of the eight methods
    hands to [addConstraintDefinition]. *)
Definition definition_of (m : ChainCall) : QueryConstraintDefinition :=
  match m with
  | call__where fieldPath opStr v => WhereConstraint fieldPath opStr v
  | call_orderBy fieldPath directionStr =>
      OrderByConstraint fieldPath (default asc directionStr)
  | call_limit limitCount => LimitConstraint type_limit limitCount
  | call_limitToLast limitCount => LimitConstraint type_limitToLast limitCount
  | call_startAt a vs => CursorConstraint type_startAt a vs
  | call_startAfter a vs => CursorConstraint type_startAfter a vs
  | call_endAt a vs => CursorConstraint type_endAt a vs
  | call_endBefore a vs => CursorConstraint type_endBefore a vs
  end.

End ClientBaseQueryBuilder.

(** ** baseUpdateBuilder.ts *)

Module ClientBaseUpdateBuilder.
Import Js Sdk Schema Runtime.

Section methods.
Context {remote : Store}.

(** [new ClientBaseUpdateBuilder(docRef)]; [_updateData] starts as [{}]. *)
Definition new (docRef : DocumentReference) : M loc :=
  _updateData ← alloc (CellRecord ∅);
  alloc (CellUpdateBuilder {|
    ub_docRef := docRef;
    ub_updateData := _updateData |}).

(** As [addConstraintDefinition]: a new instance with the own properties of
    [this], whose [_updateData] is then set to a new record, the old one
    spread and followed by the computed key [fieldPath]. *)
Definition _set (this : loc) (fieldPath : string) (v : value) : M loc :=
  o ← load_updateBuilder this;
  newBuilder ← alloc (CellUpdateBuilder o);
  old ← load_record (ub_updateData o);
  _updateData ← alloc (CellRecord (<[fieldPath := v]> old));
  _ ← store newBuilder (CellUpdateBuilder {|
    ub_docRef := ub_docRef o;
    ub_updateData := _updateData |});
  mret newBuilder.

Definition _getIncrementFieldValue (n : Z) : M value :=
  f ← sdk_increment n; mret (VFieldValue f).

Definition _getArrayUnionFieldValue (values : list value) : M value :=
  f ← sdk_arrayUnion values; mret (VFieldValue f).

Definition _getArrayRemoveFieldValue (values : list value) : M value :=
  f ← sdk_arrayRemove values; mret (VFieldValue f).

Definition _getServerTimestampFieldValue : M value :=
  f ← sdk_serverTimestamp; mret (VFieldValue f).

Definition _getDeleteFieldValue : M value :=
  f ← sdk_deleteField; mret (VFieldValue f).

Definition _increment (this : loc) (fieldPath : string) (n : Z) : M loc :=
  v ← _getIncrementFieldValue n;
  _set this fieldPath v.

Definition _arrayUnion (this : loc) (fieldPath : string)
  (values : list value) : M loc :=
  v ← _getArrayUnionFieldValue values;
  _set this fieldPath v.

Definition _arrayRemove (this : loc) (fieldPath : string)
  (values : list value) : M loc :=
  v ← _getArrayRemoveFieldValue values;
  _set this fieldPath v.

Definition _serverTimestamp (this : loc) (fieldPath : string) : M loc :=
  v ← _getServerTimestampFieldValue;
  _set this fieldPath v.

Definition _deleteField (this : loc) (fieldPath : string) : M loc :=
  v ← _getDeleteFieldValue;
  _set this fieldPath v.

Definition commit (this : loc) : Async unit :=
  o ← load_updateBuilder this;
  _updateData ← load_record (ub_updateData o);
  if bool_decide (length (Object_keys _updateData) = 0) then
    _ ← console_dot_warn "Update commit called with no changes specified.";
    mret ()
  else
    sdk_updateDoc (ub_docRef o) _updateData.

End methods.

(** A call of one of the six chain methods, with its arguments. *)
Inductive ChainCall : Type :=
| call__set (fieldPath : string) (v : value)
| call__increment (fieldPath : string) (n : Z)
| call__arrayUnion (fieldPath : string) (values : list value)
| call__arrayRemove (fieldPath : string) (values : list value)
| call__serverTimestamp (fieldPath : string)
| call__deleteField (fieldPath : string).

Definition invoke (this : loc) (m : ChainCall) : M loc :=
  match m with
  | call__set fieldPath v => _set this fieldPath v
  | call__increment fieldPath n => _increment this fieldPath n
  | call__arrayUnion fieldPath values => _arrayUnion this fieldPath values
  | call__arrayRemove fieldPath values => _arrayRemove this fieldPath values
  | call__serverTimestamp fieldPath => _serverTimestamp this fieldPath
  | call__deleteField fieldPath => _deleteField this fieldPath
  end.

Definition chain (this : loc) (ms : list ChainCall) : M loc :=
  foldM invoke this ms.

(** The field path a call targets. *)
Definition target (m : ChainCall) : string :=
  match m with
  | call__set fieldPath _ | call__increment fieldPath _
  | call__arrayUnion fieldPath _ | call__arrayRemove fieldPath _
  | call__serverTimestamp fieldPath | call__deleteField fieldPath => fieldPath
  end.

(** The operation a call installs at its target, as the value the store is
    to receive: the literal itself, or the sentinel of the operation. *)
Definition installs (m : ChainCall) : value :=
  match m with
  | call__set _ v => v
  | call__increment _ n => VFieldValue (increment_ n)
  | call__arrayUnion _ values => VFieldValue (arrayUnion_ values)
  | call__arrayRemove _ values => VFieldValue (arrayRemove_ values)
  | call__serverTimestamp _ => VFieldValue serverTimestamp_
  | call__deleteField _ => VFieldValue deleteField_
  end.

(** The update mapping a builder holds, read through the heap. *)
Definition updateData_of (w : World) (b : loc) : option (gmap string value) :=
  match heap w !! b with
  | Some (CellUpdateBuilder o) =>
      match heap w !! ub_updateData o with
      | Some (CellRecord props) => Some props
      | _ => None
      end
  | _ => None
  end.

(** The sentinel factory a chain call calls, if it calls one. *)
Definition factory_calls (m : ChainCall) : list Event :=
  match m with
  | call__set _ _ => []
  | call__increment _ n => [call_fieldValue (increment_ n)]
  | call__arrayUnion _ values => [call_fieldValue (arrayUnion_ values)]
  | call__arrayRemove _ values => [call_fieldValue (arrayRemove_ values)]
  | call__serverTimestamp _ => [call_fieldValue serverTimestamp_]
  | call__deleteField _ => [call_fieldValue deleteField_]
  end.

(** The mapping after a sequence of chain calls, each installing its value
    at its target over what was there. *)
Definition accumulate (data : gmap string value) (ms : list ChainCall)
  : gmap string value :=
  foldl (λ acc m, <[target m := installs m]> acc) data ms.

End ClientBaseUpdateBuilder.

(** ** baseCollection.ts *)

Module ClientBaseCollectionRef.
Import Js Sdk Schema Runtime.

Section methods.
Context {remote : Store}.

(** The constructor.  [cls] is the class being instantiated, [None] for
    [ClientBaseCollectionRef] itself. *)
Definition new (cls : option CollectionClass) (firestore : Firestore)
  (collectionId : string) (schema : option CollectionSchema)
  (parentRef : option DocumentReference) : M loc :=
  ref ← match parentRef with
        | Some parentRef => sdk_collection_sub parentRef collectionId
        | None => sdk_collection_root firestore collectionId
        end;
  alloc (CellCollectionRef {|
    cr_class := cls;
    cr_ref := ref;
    cr_firestore := firestore;
    cr_collectionId := collectionId;
    cr_schema := schema |}).

(** [new ResolvedSubCollectionClass(...)] for a class taken from a schema. *)
Definition construct (cls : CollectionClass) (firestore : Firestore)
  (collectionId : string) (schema : option CollectionSchema)
  (parentRef : DocumentReference) : M loc :=
  _ ← emit (call_new cls firestore collectionId schema (Some parentRef));
  new (Some cls) firestore collectionId schema (Some parentRef).

Definition doc (this : loc) (id : string) : M DocumentReference :=
  o ← load_collectionRef this;
  sdk_doc (cr_ref o) id.

(** [for (const fieldName in fields)] visits the keys of [fields], each once.
    The order of the visit is not that of JavaScript; the rounds of the loop
    touch different keys, and no result depends on their order (see
    [applyDefaults_loop_order_irrelevant]). *)
Definition for_in (fields : gmap string FieldSchema) : list string :=
  (map_to_list fields).*1.

(** The body of the loop of [applyDefaults]. *)
Definition applyDefaults_field (fields : gmap string FieldSchema)
  (dataWithDefaults : gmap string value) (fieldName : string)
  : M (gmap string value) :=
  match fields !! fieldName with
  | None => throw (TypeError "fieldDef is undefined")
  | Some fieldDef =>
      if strict_eq_string (defaultValue fieldDef) "serverTimestamp"
         && is_undefined (read dataWithDefaults fieldName)
      then
        ts ← sdk_serverTimestamp;
        mret (<[fieldName := VFieldValue ts]> dataWithDefaults)
      else if negb (is_undefined (defaultValue fieldDef))
              && negb (strict_eq_string (defaultValue fieldDef)
                         "serverTimestamp")
              && is_undefined (read dataWithDefaults fieldName)
      then
        mret (<[fieldName := defaultValue fieldDef]> dataWithDefaults)
      else
        mret dataWithDefaults
  end.

(** [dataWithDefaults] starts as a copy of [data]. *)
Definition applyDefaults (this : loc) (data : gmap string value)
  : M (gmap string value) :=
  o ← load_collectionRef this;
  match cr_schema o with
  | Some schema =>
      foldM (applyDefaults_field (fields schema)) data (for_in (fields schema))
  | None => mret data
  end.

Definition add (this : loc) (data : gmap string value)
  : Async DocumentReference :=
  dataToWrite ← applyDefaults this data;
  o ← load_collectionRef this;
  sdk_addDoc (cr_ref o) dataToWrite.

(** [options && ('merge' in options && options.merge === true
                 || 'mergeFields' in options)], as a boolean. *)
Definition isMerge (options : option (gmap string value)) : bool :=
  match options with
  | Some options =>
      has options "merge" && strict_eq_true (read options "merge")
      || has options "mergeFields"
  | None => false
  end.

Definition set (this : loc) (id : string) (data : gmap string value)
  (options : option (gmap string value)) : Async unit :=
  docRef ← doc this id;
  dataToWrite ← (if negb (isMerge options) then applyDefaults this data
                 else mret data);
  sdk_setDoc docRef dataToWrite (default ∅ options).

Definition delete (this : loc) (id : string) : Async unit :=
  docRef ← doc this id;
  sdk_deleteDoc docRef.

(** The result is [TData | undefined]: [None] is [undefined]. *)
Definition get (this : loc) (id : string)
  : Async (option (gmap string value)) :=
  docRef ← doc this id;
  snapshot ← sdk_getDoc docRef;
  mret (if snapshot_exists snapshot then snapshot_data snapshot else None).

(** A member of [Object.prototype] read as an entry of [subCollections]:
    an object, hence truthy, with neither [schema] nor [collectionClass]. *)
Definition inherited_entry : SubCollectionDef :=
  {| schema := None; collectionClass := None |}.

(** [this.schema?.subCollections] and then [subCollections[subCollectionId]]:
    the declared entry, else the member of [Object.prototype] of that name,
    else [undefined] ([None]).  A declared entry is an object, hence
    truthy. *)
Definition lookup_subCollection (o : CollectionRefObject)
  (subCollectionId : string) : option SubCollectionDef :=
  subCollections ← (schema ← cr_schema o; subCollections schema);
  match subCollections !! subCollectionId with
  | Some subCollectionDef => Some subCollectionDef
  | None => _ ← Object_prototype subCollectionId; Some inherited_entry
  end.

Definition subCollection (this : loc) (parentId subCollectionId : string)
  (subSchema : option CollectionSchema) : M loc :=
  o ← load_collectionRef this;
  match lookup_subCollection o subCollectionId with
  | None =>
      throw (Error ("Sub-collection '" +:+ subCollectionId
                    +:+ "' not found in schema for collection '"
                    +:+ collection_id (cr_ref o) +:+ "'"))
  | Some subCollectionDef =>
      match collectionClass subCollectionDef with
      | None =>
          throw (Error ("Collection class definition missing for sub-collection '"
                        +:+ subCollectionId
                        +:+ "' in schema for collection '"
                        +:+ collection_id (cr_ref o) +:+ "'"))
      | Some ResolvedSubCollectionClass =>
          parentDocRef ← doc this parentId;
          construct ResolvedSubCollectionClass (cr_firestore o)
            subCollectionId (schema subCollectionDef) parentDocRef
      end
  end.

End methods.

(** *** The write preparer, field by field *)

(** A payload omits a field when it has no own property of that name, or one
    that holds [undefined]; it supplies the field otherwise. *)
Definition omits (data : gmap string value) (k : string) : Prop :=
  Js.get data k = VUndefined.

(** The test of [applyDefaults]: reading the field yields [undefined].  This
    is omission for every name but those of [Object.prototype], which read as
    the inherited member unless the payload has an own property of the
    name. *)
Definition reads_undefined (data : gmap string value) (k : string) : Prop :=
  Js.read data k = VUndefined.

(** What a directive injects: the sentinel when it names the server
    timestamp, the directive itself otherwise. *)
Definition injected (fieldDef : FieldSchema) : value :=
  if strict_eq_string (defaultValue fieldDef) "serverTimestamp"
  then VFieldValue serverTimestamp_
  else defaultValue fieldDef.

(** The defaults a payload is given: what the directive injects, for every
    declared field that has a directive and reads as [undefined] in the
    payload. *)
Definition defaults_for (schema : CollectionSchema)
  (data : gmap string value) : gmap string value :=
  map_imap (λ k fieldDef,
              if is_undefined (Js.read data k)
                 && negb (is_undefined (defaultValue fieldDef))
              then Some (injected fieldDef)
              else None)
           (fields schema).

(** The payload with its defaults; everything else as it is. *)
Definition withDefaults (schema : option CollectionSchema)
  (data : gmap string value) : gmap string value :=
  match schema with
  | None => data
  | Some schema => defaults_for schema data ∪ data
  end.

(** The field is declared with the server-timestamp directive and reads as
    [undefined] in the payload. *)
Definition wants_timestamp (fields : gmap string FieldSchema)
  (data : gmap string value) (k : string) : bool :=
  match fields !! k with
  | Some fieldDef =>
      strict_eq_string (defaultValue fieldDef) "serverTimestamp"
      && is_undefined (Js.read data k)
  | None => false
  end.

(** How many declared fields want the server timestamp. *)
Definition timestamps_wanted (schema : option CollectionSchema)
  (data : gmap string value) : nat :=
  match schema with
  | None => 0
  | Some schema =>
      length (filter (λ k, wants_timestamp (fields schema) data k)
                (for_in (fields schema)))
  end.



(** *** Sub-collection declarations *)

(** The schema of the resolver declares [name] with the entry [def]. *)
Definition declares (o : CollectionRefObject) (name : string)
  (def : SubCollectionDef) : Prop :=
  ∃ schema subs,
    cr_schema o = Some schema
    ∧ subCollections schema = Some subs
    ∧ subs !! name = Some def.

(** The resolver has no schema, or its schema does not declare [name]. *)
Definition undeclared (o : CollectionRefObject) (name : string) : Prop :=
  cr_schema o = None
  ∨ ∃ schema,
      cr_schema o = Some schema
      ∧ (subCollections schema = None
         ∨ ∃ subs, subCollections schema = Some subs ∧ subs !! name = None).

(** The schema of the resolver has sub-collections, none under [name]. *)
Definition declares_others (o : CollectionRefObject) (name : string) : Prop :=
  ∃ schema subs,
    cr_schema o = Some schema
    ∧ subCollections schema = Some subs
    ∧ subs !! name = None.

(** The message has the text [s] in it. *)
Definition mentions (message s : string) : Prop :=
  ∃ before after, message = before +:+ s +:+ after.

(** The two messages of [subCollection]. *)
Definition not_found_message (subCollectionId id : string) : string :=
  "Sub-collection '" +:+ subCollectionId
  +:+ "' not found in schema for collection '" +:+ id +:+ "'".

Definition class_missing_message (subCollectionId id : string) : string :=
  "Collection class definition missing for sub-collection '"
  +:+ subCollectionId +:+ "' in schema for collection '" +:+ id +:+ "'".

End ClientBaseCollectionRef.

(** ** A store and a schema to run the methods on *)

Module Mock.
Import Js Sdk Schema Runtime.

(** Every write succeeds; only the document ['doc-1'] exists. *)
#[export] Instance store : Store := {|
  collection_id r :=
    match r with collection_root _ path | collection_sub _ path => path end;
  addDoc_response _ ref _ := Return (doc_ ref "generated-id");
  setDoc_response _ _ _ _ := Return ();
  deleteDoc_response _ _ := Return ();
  getDoc_response _ d :=
    match d with
    | doc_ _ "doc-1" =>
        Return {| snapshot_exists := true;
                  snapshot_data := Some {[ "name" := VString "a" ]} |}
    | _ => Return {| snapshot_exists := false; snapshot_data := None |}
    end;
  getDocs_response _ _ := Return {| docs := [] |};
  updateDoc_response _ _ _ := Return ()
|}.

Definition firestore : Firestore := firestore_of "[DEFAULT]".

Definition CommentsRef : CollectionClass := {| class_name := "CommentsRef" |}.

Definition commentSchema : CollectionSchema := {|
  fields := {[ "text" := {| defaultValue := VUndefined |} ]};
  subCollections := None
|}.

(** [createdAt] defaults to the server timestamp and [role] to ['guest'];
    [name] has no default.  One sub-collection is declared in full, one
    without its class. *)
Definition userSchema : CollectionSchema := {|
  fields := {[
    "name" := {| defaultValue := VUndefined |};
    "role" := {| defaultValue := VString "guest" |};
    "createdAt" := {| defaultValue := VString "serverTimestamp" |} ]};
  subCollections := Some {[
    "comments" := {| schema := Some commentSchema;
                     collectionClass := Some CommentsRef |};
    "drafts" := {| schema := None; collectionClass := None |} ]}
|}.

Definition users : CollectionRefObject := {|
  cr_class := None;
  cr_ref := collection_root firestore "users";
  cr_firestore := firestore;
  cr_collectionId := "users";
  cr_schema := Some userSchema
|}.

(** A world with the resolver [users] at location 1, a query builder at 3
    holding one constraint in the array at 2, an update builder at 5 holding
    one operation in the record at 4, and an update builder at 7 holding
    none. *)
Definition world : World := {|
  heap := {[
    1%positive := CellCollectionRef users;
    2%positive := CellArray [LimitConstraint type_limit 5];
    3%positive := CellQueryBuilder {|
      qb_firestore := firestore;
      qb_collectionRef := cr_ref users;
      qb_constraintDefinitions := 2%positive |};
    4%positive := CellRecord {[ "x" := VNumber 1 ]};
    5%positive := CellUpdateBuilder {|
      ub_docRef := doc_ (cr_ref users) "doc-1";
      ub_updateData := 4%positive |};
    6%positive := CellRecord ∅;
    7%positive := CellUpdateBuilder {|
      ub_docRef := doc_ (cr_ref users) "doc-1";
      ub_updateData := 6%positive |} ]};
  log := []
|}.

(** A schema whose directives are all falsy literals, and a world with a
    resolver that has it at location 1 and a resolver without a schema at
    location 2. *)
Definition settingsSchema : CollectionSchema := {|
  fields := {[
    "enabled" := {| defaultValue := VBool false |};
    "retries" := {| defaultValue := VNumber 0 |};
    "label" := {| defaultValue := VString "" |};
    "owner" := {| defaultValue := VNull |} ]};
  subCollections := None
|}.

Definition settings : CollectionRefObject := {|
  cr_class := None;
  cr_ref := collection_root firestore "settings";
  cr_firestore := firestore;
  cr_collectionId := "settings";
  cr_schema := Some settingsSchema
|}.

Definition logs : CollectionRefObject := {|
  cr_class := None;
  cr_ref := collection_root firestore "logs";
  cr_firestore := firestore;
  cr_collectionId := "logs";
  cr_schema := None
|}.

Definition settings_world : World := {|
  heap := {[ 1%positive := CellCollectionRef settings;
             2%positive := CellCollectionRef logs ]};
  log := []
|}.

(** A schema whose fields have names that every object inherits from
    [Object.prototype], beside an ordinary one, and a world with a resolver
    that has it at location 1. *)
Definition auditSchema : CollectionSchema := {|
  fields := {[
    "constructor" := {| defaultValue := VString "serverTimestamp" |};
    "toString" := {| defaultValue := VString "x" |};
    "note" := {| defaultValue := VString "n" |} ]};
  subCollections := Some ∅
|}.

Definition audit : CollectionRefObject := {|
  cr_class := None;
  cr_ref := collection_root firestore "audit";
  cr_firestore := firestore;
  cr_collectionId := "audit";
  cr_schema := Some auditSchema
|}.

Definition audit_world : World := {|
  heap := {[ 1%positive := CellCollectionRef audit ]};
  log := []
|}.

(** A world with a query builder at 2 holding one [limitToLast] constraint
    in the array at 1, on the collection of [users]. *)
Definition last_world : World := {|
  heap := {[
    1%positive := CellArray [LimitConstraint type_limitToLast 5];
    2%positive := CellQueryBuilder {|
      qb_firestore := firestore;
      qb_collectionRef := cr_ref users;
      qb_constraintDefinitions := 1%positive |} ]};
  log := []
|}.

(** A store whose every query matches the same two documents. *)
Definition two_matches : Store := {|
  collection_id r :=
    match r with collection_root _ path | collection_sub _ path => path end;
  addDoc_response _ ref _ := Return (doc_ ref "generated-id");
  setDoc_response _ _ _ _ := Return ();
  deleteDoc_response _ _ := Return ();
  getDoc_response _ _ :=
    Return {| snapshot_exists := false; snapshot_data := None |};
  getDocs_response _ _ :=
    Return {| docs := [ {| data_of := {[ "name" := VString "a" ]} |};
                        {| data_of := {[ "name" := VString "b" ]} |} ] |};
  updateDoc_response _ _ _ := Return ()
|}.

(** A store out of reach: every round trip is rejected. *)
Definition offline : Store := {|
  collection_id r :=
    match r with collection_root _ path | collection_sub _ path => path end;
  addDoc_response _ _ _ := Throw (StoreError "unavailable");
  setDoc_response _ _ _ _ := Throw (StoreError "unavailable");
  deleteDoc_response _ _ := Throw (StoreError "unavailable");
  getDoc_response _ _ := Throw (StoreError "unavailable");
  getDocs_response _ _ := Throw (StoreError "unavailable");
  updateDoc_response _ _ _ := Throw (StoreError "unavailable")
|}.

End Mock.

(** * Properties *)

Module QB := ClientBaseQueryBuilder.
Module UB := ClientBaseUpdateBuilder.
Module CR := ClientBaseCollectionRef.

Module JsFacts.
Import Js.

Lemma is_undefined_true v : is_undefined v = true ↔ v = VUndefined.
Proof. destruct v; naive_solver. Qed.

Lemma is_undefined_false v : is_undefined v = false ↔ v ≠ VUndefined.
Proof. destruct v; naive_solver. Qed.

Lemma strict_eq_string_true v s : strict_eq_string v s = true ↔ v = VString s.
Proof.
  destruct v; simpl; try naive_solver.
  rewrite bool_decide_eq_true. naive_solver.
Qed.

Lemma strict_eq_string_false v s : strict_eq_string v s = false ↔ v ≠ VString s.
Proof.
  destruct v; simpl; try naive_solver.
  rewrite bool_decide_eq_false. naive_solver.
Qed.

Lemma get_insert_eq o k v : get (<[k:=v]> o) k = v.
Proof. unfold get. by rewrite lookup_insert_eq. Qed.

Lemma get_insert_ne o k k' v : k ≠ k' → get (<[k:=v]> o) k' = get o k'.
Proof. intros. unfold get. by rewrite lookup_insert_ne. Qed.

Lemma Object_prototype_Some k v :
  Object_prototype k = Some v ↔ k ∈ Object_prototype_names ∧ v = VHost (encode k).
Proof.
  unfold Object_prototype. case_bool_decide; split.
  - intros [= <-]. done.
  - intros [_ ->]. done.
  - done.
  - intros [? _]. done.
Qed.

Lemma Object_prototype_None k :
  Object_prototype k = None ↔ k ∉ Object_prototype_names.
Proof. unfold Object_prototype. case_bool_decide; split; done. Qed.

Lemma Object_prototype_defined k v :
  Object_prototype k = Some v → v ≠ VUndefined.
Proof. intros [_ ->]%Object_prototype_Some. done. Qed.

Lemma read_own o k v : o !! k = Some v → read o k = v.
Proof. unfold read. by intros ->. Qed.

Lemma read_ordinary o k : k ∉ Object_prototype_names → read o k = get o k.
Proof.
  intros Hk%Object_prototype_None. unfold read, get. rewrite Hk.
  by destruct (o !! k).
Qed.

Lemma read_inherited o k :
  o !! k = None → k ∈ Object_prototype_names → read o k = VHost (encode k).
Proof.
  intros Ho Hk. unfold read. rewrite Ho.
  by rewrite (proj2 (Object_prototype_Some k _) (conj Hk eq_refl)).
Qed.

(** A field reads as [undefined] when it is an own property holding
    [undefined], or when it is neither an own property nor the name of a
    member of [Object.prototype]. *)
Lemma read_undefined o k :
  read o k = VUndefined
  ↔ o !! k = Some VUndefined ∨ (o !! k = None ∧ k ∉ Object_prototype_names).
Proof.
  unfold read. destruct (o !! k) as [v|]; split.
  - intros ->. by left.
  - intros [[= ->]|[? _]]; done.
  - destruct (Object_prototype k) as [v|] eqn:Hp.
    + intros Hv. by apply Object_prototype_defined in Hp.
    + intros _. right. split; [done|]. by apply Object_prototype_None.
  - intros [?|[_ Hk%Object_prototype_None]]; [done|]. by rewrite Hk.
Qed.

Lemma read_undefined_get o k : read o k = VUndefined → get o k = VUndefined.
Proof.
  intros [Ho|[Ho _]]%read_undefined; unfold get; by rewrite Ho.
Qed.

Lemma read_ext (o o' : gmap string value) k :
  o' !! k = o !! k → read o' k = read o k.
Proof. intros E. unfold read. by rewrite E. Qed.




Lemma string_app_assoc (s1 s2 s3 : string) :
  s1 +:+ s2 +:+ s3 = (s1 +:+ s2) +:+ s3.
Proof.
  induction s1 as [|a s1 IH]; [done|].
  change (String a (s1 +:+ s2 +:+ s3) = String a ((s1 +:+ s2) +:+ s3)).
  by rewrite IH.
Qed.

Lemma Object_keys_length o : length (Object_keys o) = size o.
Proof. unfold Object_keys. by rewrite length_fmap, length_map_to_list. Qed.

Lemma Object_keys_empty o : length (Object_keys o) = 0 ↔ o = ∅.
Proof. rewrite Object_keys_length. apply map_size_empty_iff. Qed.

Lemma Object_keys_NoDup o : NoDup (Object_keys o).
Proof. apply NoDup_fst_map_to_list. Qed.

Lemma elem_of_Object_keys o k : k ∈ Object_keys o ↔ is_Some (o !! k).
Proof.
  unfold Object_keys. rewrite list_elem_of_fmap. split.
  - intros ([k' v] & -> & Hin). apply elem_of_map_to_list in Hin. eauto.
  - intros [v Hv]. exists (k, v). split; [done|]. by apply elem_of_map_to_list.
Qed.

End JsFacts.

Module ListFacts.

Lemma filter_ext_elem_of {A} (P1 P2 : A → Prop)
  `{!∀ x, Decision (P1 x), !∀ x, Decision (P2 x)} (l : list A) :
  (∀ x, x ∈ l → P1 x ↔ P2 x) → filter P1 l = filter P2 l.
Proof.
  induction l as [|x l IH]; intros Hext; [done|].
  rewrite !filter_cons, IH by (intros y Hy; apply Hext; by right).
  destruct (decide (P1 x)) as [H1|H1], (decide (P2 x)) as [H2|H2];
    try done; destruct (Hext x); [by left| |by left|]; tauto.
Qed.

Lemma filter_none {A} (P : A → Prop) `{!∀ x, Decision (P x)} (l : list A) :
  (∀ x, x ∈ l → ¬ P x) → filter P l = [].
Proof.
  induction l as [|x l IH]; intros Hnone; [done|].
  rewrite filter_cons_False by (apply Hnone; by left).
  apply IH. intros y Hy. apply Hnone. by right.
Qed.

Lemma filter_eq_NoDup_length (k : string) (ks : list string) :
  NoDup ks → k ∈ ks → length (filter (λ k', k' = k) ks) = 1.
Proof.
  induction 1 as [|k0 ks Hk0 Hnd IH]; intros Hin.
  - by apply elem_of_nil in Hin.
  - rewrite filter_cons. destruct (decide (k0 = k)) as [->|Hne].
    + rewrite filter_none; [done|]. by intros k' Hk' ->.
    + apply IH. apply elem_of_cons in Hin as [->|]; done.
Qed.

End ListFacts.

Module RuntimeFacts.
Import Js Sdk Schema Runtime.

Lemma bind_unfold {A B} (m : M A) (k : A → M B) w :
  (m ≫= k) w = match m w with
               | (Return a, w') => k a w'
               | (Throw e, w') => (Throw e, w')
               end.
Proof. reflexivity. Qed.

Lemma bind_Return {A B} (m : M A) (k : A → M B) w a w' :
  m w = (Return a, w') → (m ≫= k) w = k a w'.
Proof. intros E. by rewrite bind_unfold, E. Qed.

Lemma factory_run {A} (e : A → Event) (a : A) w :
  factory e a w = (Return a, {| heap := heap w; log := log w ++ [e a] |}).
Proof. reflexivity. Qed.

Lemma fresh_heap_None (h : gmap loc Cell) : h !! fresh (dom h) = None.
Proof. apply not_elem_of_dom, is_fresh. Qed.

Lemma load_Some w l c : heap w !! l = Some c → load l w = (Return c, w).
Proof. intros E. unfold load. by rewrite E. Qed.

Lemma load_queryBuilder_Some w l o :
  heap w !! l = Some (CellQueryBuilder o) →
  load_queryBuilder l w = (Return o, w).
Proof.
  intros E. unfold load_queryBuilder.
  by rewrite (bind_Return _ _ _ _ _ (load_Some _ _ _ E)).
Qed.

Lemma load_array_Some w l defs :
  heap w !! l = Some (CellArray defs) → load_array l w = (Return defs, w).
Proof.
  intros E. unfold load_array.
  by rewrite (bind_Return _ _ _ _ _ (load_Some _ _ _ E)).
Qed.

Lemma load_updateBuilder_Some w l o :
  heap w !! l = Some (CellUpdateBuilder o) →
  load_updateBuilder l w = (Return o, w).
Proof.
  intros E. unfold load_updateBuilder.
  by rewrite (bind_Return _ _ _ _ _ (load_Some _ _ _ E)).
Qed.

Lemma load_record_Some w l props :
  heap w !! l = Some (CellRecord props) → load_record l w = (Return props, w).
Proof.
  intros E. unfold load_record.
  by rewrite (bind_Return _ _ _ _ _ (load_Some _ _ _ E)).
Qed.

Lemma load_collectionRef_Some w l o :
  heap w !! l = Some (CellCollectionRef o) →
  load_collectionRef l w = (Return o, w).
Proof.
  intros E. unfold load_collectionRef.
  by rewrite (bind_Return _ _ _ _ _ (load_Some _ _ _ E)).
Qed.

(** Runs the typed load at the head of the goal, given what the heap holds
    at the location. *)
Ltac run_load H :=
  first
    [ rewrite (bind_Return _ _ _ _ _ (load_queryBuilder_Some _ _ _ H))
    | rewrite (bind_Return _ _ _ _ _ (load_updateBuilder_Some _ _ _ H))
    | rewrite (bind_Return _ _ _ _ _ (load_collectionRef_Some _ _ _ H))
    | rewrite (bind_Return _ _ _ _ _ (load_array_Some _ _ _ H))
    | rewrite (bind_Return _ _ _ _ _ (load_record_Some _ _ _ H)) ].

End RuntimeFacts.

(** ** The query builder *)

Module QueryBuilderFacts.
Import Js Sdk Schema Runtime RuntimeFacts.

Lemma constraints_of_Some w b defs :
  QB.constraints_of w b = Some defs ↔
  ∃ o, heap w !! b = Some (CellQueryBuilder o)
       ∧ heap w !! qb_constraintDefinitions o = Some (CellArray defs).
Proof.
  unfold QB.constraints_of. split.
  - destruct (heap w !! b) as [[| |o| |]|] eqn:Hb; try done.
    destruct (heap w !! qb_constraintDefinitions o) as [[]|] eqn:Ha; try done.
    intros [= ->]. eauto.
  - intros (o & -> & ->). done.
Qed.

(** An append allocates the new builder and then its array, and touches
    nothing else. *)
Lemma addConstraintDefinition_run w b o defs def :
  heap w !! b = Some (CellQueryBuilder o) →
  heap w !! qb_constraintDefinitions o = Some (CellArray defs) →
  ∃ b' a' w',
    QB.addConstraintDefinition b def w = (Return b', w')
    ∧ heap w !! b' = None ∧ heap w !! a' = None ∧ b' ≠ a'
    ∧ log w' = log w
    ∧ heap w' =
        <[b' := CellQueryBuilder {|
           qb_firestore := qb_firestore o;
           qb_collectionRef := qb_collectionRef o;
           qb_constraintDefinitions := a' |}]>
          (<[a' := CellArray (defs ++ [def])]> (heap w)).
Proof.
  intros Hb Ha.
  set (b' := fresh (dom (heap w))).
  set (h1 := <[b' := CellQueryBuilder o]> (heap w)).
  set (a' := fresh (dom h1)).
  assert (Hb' : heap w !! b' = None) by apply fresh_heap_None.
  assert (Ha1 : h1 !! a' = None) by apply fresh_heap_None.
  assert (Hne : b' ≠ a').
  { intros E. rewrite <- E in Ha1. subst h1.
    by rewrite lookup_insert_eq in Ha1. }
  assert (Ha' : heap w !! a' = None).
  { subst h1. by rewrite lookup_insert_ne in Ha1. }
  exists b', a',
    {| heap := <[b' := CellQueryBuilder {|
                 qb_firestore := qb_firestore o;
                 qb_collectionRef := qb_collectionRef o;
                 qb_constraintDefinitions := a' |}]>
                 (<[a' := CellArray (defs ++ [def])]> h1);
       log := log w |}.
  split; [|split_and!; try done].
  - unfold QB.addConstraintDefinition.
    run_load Hb.
    rewrite bind_unfold. cbn [alloc heap log]. fold b' h1.
    erewrite bind_Return; last first.
    { apply load_array_Some. cbn [heap]. subst h1.
      rewrite lookup_insert_ne; [exact Ha|]. congruence. }
    rewrite bind_unfold. cbn [alloc heap log]. fold a'.
    reflexivity.
  - cbn [heap]. subst h1. rewrite (insert_insert_ne _ a' b'); [|done].
    by rewrite insert_insert_eq.
Qed.

(** What a reader of the heap sees after an append. *)
Lemma addConstraintDefinition_frame w b o defs def :
  heap w !! b = Some (CellQueryBuilder o) →
  heap w !! qb_constraintDefinitions o = Some (CellArray defs) →
  ∃ b' o' w',
    QB.addConstraintDefinition b def w = (Return b', w')
    ∧ heap w !! b' = None
    ∧ heap w !! qb_constraintDefinitions o' = None
    ∧ log w' = log w
    ∧ (∀ l c, heap w !! l = Some c → heap w' !! l = Some c)
    ∧ heap w' !! b' = Some (CellQueryBuilder o')
    ∧ qb_firestore o' = qb_firestore o
    ∧ qb_collectionRef o' = qb_collectionRef o
    ∧ heap w' !! qb_constraintDefinitions o'
      = Some (CellArray (defs ++ [def])).
Proof.
  intros Hb Ha.
  destruct (addConstraintDefinition_run w b o defs def Hb Ha)
    as (b' & a' & w' & Hrun & Hb' & Ha' & Hne & Hlog & Hheap).
  exists b', {| qb_firestore := qb_firestore o;
                qb_collectionRef := qb_collectionRef o;
                qb_constraintDefinitions := a' |}, w'.
  rewrite Hheap. cbn [qb_firestore qb_collectionRef qb_constraintDefinitions].
  split_and!; [done..| | | | |].
  - intros l c Hl.
    rewrite !lookup_insert_ne; [done|congruence..].
  - apply lookup_insert_eq.
  - done.
  - done.
  - rewrite lookup_insert_ne; [|done]. apply lookup_insert_eq.
Qed.

(** Every chain method is an append of the definition it builds. *)
Lemma invoke_is_append b m w :
  ∃ def, QB.invoke b m w = QB.addConstraintDefinition b def w.
Proof. destruct m; cbn [QB.invoke]; eexists; reflexivity. Qed.

Lemma appended_run defs : ∀ w b o defs0,
  heap w !! b = Some (CellQueryBuilder o) →
  heap w !! qb_constraintDefinitions o = Some (CellArray defs0) →
  ∃ b' o' w',
    foldM QB.addConstraintDefinition b defs w = (Return b', w')
    ∧ log w' = log w
    ∧ (∀ l c, heap w !! l = Some c → heap w' !! l = Some c)
    ∧ heap w' !! b' = Some (CellQueryBuilder o')
    ∧ qb_collectionRef o' = qb_collectionRef o
    ∧ heap w' !! qb_constraintDefinitions o'
      = Some (CellArray (defs0 ++ defs)).
Proof.
  induction defs as [|def defs IH]; intros w b o defs0 Hb Ha.
  - exists b, o, w. rewrite app_nil_r. by split_and!.
  - destruct (addConstraintDefinition_frame w b o defs0 def Hb Ha)
      as (b1 & o1 & w1 & Hrun & _ & _ & Hlog & Hframe & Hb1 & _ & Href & Ha1).
    destruct (IH w1 b1 o1 (defs0 ++ [def]) Hb1 Ha1)
      as (b' & o' & w' & Hrun' & Hlog' & Hframe' & Hb' & Href' & Ha').
    exists b', o', w'. split_and!.
    + cbn [foldM]. by rewrite (bind_Return _ _ _ _ _ Hrun).
    + congruence.
    + eauto.
    + done.
    + congruence.
    + by rewrite <- app_assoc in Ha'.
Qed.

(** The factories are called one definition after the other. *)
Lemma mapM_toClientConstraint defs w :
  mapM QB.toClientConstraint defs w =
    (Return (QB.translation <$> defs),
     {| heap := heap w;
        log := log w ++ (call_constraint ∘ QB.translation <$> defs) |}).
Proof.
  revert w. induction defs as [|def defs IH]; intros w.
  - cbn. rewrite app_nil_r. by destruct w.
  - cbn [mapM]. rewrite bind_unfold.
    assert (QB.toClientConstraint def w =
              (Return (QB.translation def),
               {| heap := heap w;
                  log := log w ++ [call_constraint (QB.translation def)] |}))
      as -> by (by destruct def as [| |[]|[]]).
    rewrite bind_unfold, IH. cbn.
    by rewrite <- app_assoc.
Qed.

Lemma buildQuery_run w b o defs :
  heap w !! b = Some (CellQueryBuilder o) →
  heap w !! qb_constraintDefinitions o = Some (CellArray defs) →
  let q := query_ (qb_collectionRef o) (QB.translation <$> defs) in
  QB.buildQuery b w =
    (Return q,
     {| heap := heap w;
        log := log w ++ (call_constraint ∘ QB.translation <$> defs)
                 ++ [call_query q] |}).
Proof.
  intros Hb Ha q. unfold QB.buildQuery.
  run_load Hb.
  run_load Ha.
  rewrite bind_unfold, mapM_toClientConstraint.
  unfold sdk_query. rewrite factory_run. cbn [heap log].
  by rewrite <- app_assoc.
Qed.

(** A new builder holds no definition. *)
Lemma new_run firestore collectionRef w :
  ∃ b o w',
    QB.new firestore collectionRef w = (Return b, w')
    ∧ log w' = log w
    ∧ heap w' !! b = Some (CellQueryBuilder o)
    ∧ qb_collectionRef o = collectionRef
    ∧ heap w' !! qb_constraintDefinitions o = Some (CellArray []).
Proof.
  set (a := fresh (dom (heap w))).
  set (h1 := <[a := CellArray []]> (heap w)).
  set (b := fresh (dom h1)).
  set (o := {| qb_firestore := firestore;
               qb_collectionRef := collectionRef;
               qb_constraintDefinitions := a |}).
  exists b, o, {| heap := <[b := CellQueryBuilder o]> h1; log := log w |}.
  assert (Hne : b ≠ a).
  { intros E. pose proof (fresh_heap_None h1) as Hf. fold b in Hf.
    subst h1. by rewrite E, lookup_insert_eq in Hf. }
  cbn [heap log]. split_and!; [reflexivity|done| |done|].
  - apply lookup_insert_eq.
  - subst h1. cbn. rewrite lookup_insert_ne; [|done]. apply lookup_insert_eq.
Qed.

(** Building, appending and compiling in one go: the native constraints of
    the query are the translations of what was appended, in that order. *)
Lemma new_append_buildQuery firestore collectionRef defs w :
  ∃ w',
    (b ← QB.new firestore collectionRef;
     b' ← foldM QB.addConstraintDefinition b defs;
     QB.buildQuery b') w
    = (Return (query_ collectionRef (QB.translation <$> defs)), w').
Proof.
  destruct (new_run firestore collectionRef w)
    as (b & o & w0 & Hnew & _ & Hb & Href & Ha).
  destruct (appended_run defs w0 b o [] Hb Ha)
    as (b' & o' & w1 & Hrun & _ & _ & Hb' & Href' & Ha').
  eexists. rewrite (bind_Return _ _ _ _ _ Hnew), (bind_Return _ _ _ _ _ Hrun).
  rewrite (buildQuery_run w1 b' o' _ Hb' Ha'). by rewrite Href', Href.
Qed.

(** C3.  Take a builder that holds the definitions [defs0] and append the
    definitions [defs] to it one after the other.  Compiling the builder
    reached returns the query over the collection of the first builder whose
    native constraints are the translations of [defs0] followed by those of
    [defs], element by element and in that order: none is dropped, doubled or
    moved.  The factories and [query] are called in that order too. *)
Theorem buildQuery_keeps_append_order (w : World) (b : loc)
  (o : QueryBuilderObject) (defs0 defs : list QueryConstraintDefinition) :
  heap w !! b = Some (CellQueryBuilder o) →
  heap w !! qb_constraintDefinitions o = Some (CellArray defs0) →
  ∃ b' w1 q w2,
    foldM QB.addConstraintDefinition b defs w = (Return b', w1)
    ∧ QB.buildQuery b' w1 = (Return q, w2)
    ∧ query_source q = qb_collectionRef o
    ∧ query_constraints q = QB.translation <$> (defs0 ++ defs)
    ∧ log w2 = log w ++ (call_constraint ∘ QB.translation <$> (defs0 ++ defs))
                 ++ [call_query q].
Proof.
  intros Hb Ha.
  destruct (appended_run defs w b o defs0 Hb Ha)
    as (b' & o' & w1 & Hrun & Hlog & _ & Hb' & Href & Ha').
  pose proof (buildQuery_run w1 b' o' _ Hb' Ha') as Hq.
  cbn zeta in Hq. rewrite Href, Hlog in Hq.
  eexists b', w1, _, _. split_and!; [exact Hrun|exact Hq|done..].
Qed.

Lemma buildQuery_keeps_append_order_witness :
  ∃ b' w1 q w2,
    foldM QB.addConstraintDefinition 3%positive
      [WhereConstraint "age" op_ge (VNumber 18);
       OrderByConstraint "age" desc;
       CursorConstraint type_startAfter (VNumber 30) []] Mock.world
      = (Return b', w1)
    ∧ QB.buildQuery b' w1 = (Return q, w2)
    ∧ query_source q = collection_root Mock.firestore "users"
    ∧ query_constraints q
      = [limit_ 5; where_ "age" op_ge (VNumber 18); orderBy_ "age" desc;
         startAfter_ (VNumber 30) []]
    ∧ log w2 = [call_constraint (limit_ 5);
                call_constraint (where_ "age" op_ge (VNumber 18));
                call_constraint (orderBy_ "age" desc);
                call_constraint (startAfter_ (VNumber 30) []);
                call_query q].
Proof.
  apply (buildQuery_keeps_append_order Mock.world 3%positive
           {| qb_firestore := Mock.firestore;
              qb_collectionRef := collection_root Mock.firestore "users";
              qb_constraintDefinitions := 2%positive |}
           [LimitConstraint type_limit 5]); reflexivity.
Defined.

End QueryBuilderFacts.

(** ** The update builder *)

Module UpdateBuilderFacts.
Import Js Sdk Schema Runtime JsFacts ListFacts RuntimeFacts.

Lemma updateData_of_Some w b data :
  UB.updateData_of w b = Some data ↔
  ∃ o, heap w !! b = Some (CellUpdateBuilder o)
       ∧ heap w !! ub_updateData o = Some (CellRecord data).
Proof.
  unfold UB.updateData_of. split.
  - destruct (heap w !! b) as [[| | |o|]|] eqn:Hb; try done.
    destruct (heap w !! ub_updateData o) as [[]|] eqn:Ha; try done.
    intros [= ->]. eauto.
  - intros (o & -> & ->). done.
Qed.

(** What a reader of the heap sees after [_set]. *)
Lemma _set_frame w b o data fieldPath v :
  heap w !! b = Some (CellUpdateBuilder o) →
  heap w !! ub_updateData o = Some (CellRecord data) →
  ∃ b' o' w',
    UB._set b fieldPath v w = (Return b', w')
    ∧ heap w !! b' = None
    ∧ heap w !! ub_updateData o' = None
    ∧ log w' = log w
    ∧ (∀ l c, heap w !! l = Some c → heap w' !! l = Some c)
    ∧ heap w' !! b' = Some (CellUpdateBuilder o')
    ∧ ub_docRef o' = ub_docRef o
    ∧ heap w' !! ub_updateData o'
      = Some (CellRecord (<[fieldPath := v]> data)).
Proof.
  intros Hb Hr.
  set (b' := fresh (dom (heap w))).
  set (h1 := <[b' := CellUpdateBuilder o]> (heap w)).
  set (r' := fresh (dom h1)).
  assert (Hb' : heap w !! b' = None) by apply fresh_heap_None.
  assert (Hr1 : h1 !! r' = None) by apply fresh_heap_None.
  assert (Hne : b' ≠ r').
  { intros E. rewrite <- E in Hr1. subst h1.
    by rewrite lookup_insert_eq in Hr1. }
  assert (Hr' : heap w !! r' = None).
  { subst h1. by rewrite lookup_insert_ne in Hr1. }
  set (o' := {| ub_docRef := ub_docRef o; ub_updateData := r' |}).
  exists b', o',
    {| heap := <[b' := CellUpdateBuilder o']>
                 (<[r' := CellRecord (<[fieldPath := v]> data)]> h1);
       log := log w |}.
  cbn [heap log ub_docRef ub_updateData o'].
  split_and!; [|done..| | | |].
  - unfold UB._set.
    run_load Hb.
    rewrite bind_unfold. cbn [alloc heap log]. fold b' h1.
    erewrite bind_Return; last first.
    { apply load_record_Some. cbn [heap]. subst h1.
      rewrite lookup_insert_ne; [exact Hr|]. congruence. }
    rewrite bind_unfold. cbn [alloc heap log]. fold r'.
    reflexivity.
  - intros l c Hl. subst h1.
    rewrite !lookup_insert_ne; [done|congruence..].
  - apply lookup_insert_eq.
  - done.
  - rewrite lookup_insert_ne; [|done]. apply lookup_insert_eq.
Qed.

(** A chain call is [_set] with the value it installs, once its sentinel
    factory, if it has one, has been called. *)
Lemma invoke_run b m w :
  ∃ calls,
    UB.invoke b m w =
      UB._set b (UB.target m) (UB.installs m)
        {| heap := heap w; log := log w ++ calls |}.
Proof.
  destruct m; cbn [UB.invoke UB.target UB.installs].
  - exists []. rewrite app_nil_r. by destruct w.
  - by exists [call_fieldValue (increment_ n)].
  - by exists [call_fieldValue (arrayUnion_ values)].
  - by exists [call_fieldValue (arrayRemove_ values)].
  - by exists [call_fieldValue serverTimestamp_].
  - by exists [call_fieldValue deleteField_].
Qed.

Lemma invoke_frame w b o data m :
  heap w !! b = Some (CellUpdateBuilder o) →
  heap w !! ub_updateData o = Some (CellRecord data) →
  ∃ b' o' w',
    UB.invoke b m w = (Return b', w')
    ∧ heap w !! b' = None
    ∧ heap w !! ub_updateData o' = None
    ∧ (∀ l c, heap w !! l = Some c → heap w' !! l = Some c)
    ∧ heap w' !! b' = Some (CellUpdateBuilder o')
    ∧ ub_docRef o' = ub_docRef o
    ∧ heap w' !! ub_updateData o'
      = Some (CellRecord (<[UB.target m := UB.installs m]> data)).
Proof.
  intros Hb Hr. destruct (invoke_run b m w) as [calls ->].
  destruct (_set_frame {| heap := heap w; log := log w ++ calls |}
              b o data (UB.target m) (UB.installs m) Hb Hr)
    as (b' & o' & w' & Hrun & ? & ? & _ & ? & ? & ? & ?).
  exists b', o', w'. by split_and!.
Qed.

(** C4.  Let a builder hold an operation at the path a chain call targets.
    The builder the call returns holds the mapping of the first with the
    value the call installs at that path: the path is read as the later
    value, it is one key among the keys of the mapping, the mapping has no
    more entries than before, and every other path is as it was.  In
    particular [_set('x', 1)._set('x', 2)] on a new builder leaves the single
    entry ['x'] with the value [2]. *)
Theorem later_operation_replaces_earlier :
  (∀ (w : World) (b : loc) (o : UpdateBuilderObject)
     (data : gmap string value) (m : UB.ChainCall),
     heap w !! b = Some (CellUpdateBuilder o) →
     heap w !! ub_updateData o = Some (CellRecord data) →
     is_Some (data !! UB.target m) →
     ∃ b' w' data',
       UB.invoke b m w = (Return b', w')
       ∧ UB.updateData_of w' b' = Some data'
       ∧ data' !! UB.target m = Some (UB.installs m)
       ∧ length (filter (λ k, k = UB.target m) (Object_keys data')) = 1
       ∧ size data' = size data
       ∧ ∀ k, k ≠ UB.target m → data' !! k = data !! k)
  ∧ (∀ (docRef : DocumentReference) (w : World),
       ∃ b' w',
         (b0 ← UB.new docRef;
          b1 ← UB._set b0 "x" (VNumber 1);
          UB._set b1 "x" (VNumber 2)) w = (Return b', w')
         ∧ UB.updateData_of w' b' = Some {[ "x" := VNumber 2 ]}
         ∧ Object_keys {[ "x" := VNumber 2 ]} = ["x"]).
Proof.
  split.
  - intros w b o data m Hb Hr [old Hold].
    destruct (invoke_frame w b o data m Hb Hr)
      as (b' & o' & w' & Hrun & _ & _ & _ & Hb' & _ & Hr').
    exists b', w', (<[UB.target m := UB.installs m]> data).
    split_and!.
    + done.
    + apply updateData_of_Some. eauto.
    + apply lookup_insert_eq.
    + apply filter_eq_NoDup_length; [apply Object_keys_NoDup|].
      apply elem_of_Object_keys. rewrite lookup_insert_eq. eauto.
    + rewrite map_size_insert, Hold. done.
    + intros k Hk. by rewrite lookup_insert_ne.
  - intros docRef w.
    set (r0 := fresh (dom (heap w))).
    set (b0 := fresh (dom (<[r0 := CellRecord ∅]> (heap w)))).
    set (o0 := {| ub_docRef := docRef; ub_updateData := r0 |}).
    set (w0 := {| heap := <[b0 := CellUpdateBuilder o0]>
                            (<[r0 := CellRecord ∅]> (heap w));
                  log := log w |}).
    assert (Hne : b0 ≠ r0).
    { intros E.
      pose proof (fresh_heap_None (<[r0 := CellRecord ∅]> (heap w))) as Hf.
      fold b0 in Hf. rewrite E, lookup_insert_eq in Hf. done. }
    assert (Hb0 : heap w0 !! b0 = Some (CellUpdateBuilder o0))
      by apply lookup_insert_eq.
    assert (Hr0 : heap w0 !! ub_updateData o0 = Some (CellRecord ∅)).
    { cbn. rewrite lookup_insert_ne; [|done]. apply lookup_insert_eq. }
    destruct (_set_frame w0 b0 o0 ∅ "x" (VNumber 1) Hb0 Hr0)
      as (b1 & o1 & w1 & Hrun1 & _ & _ & _ & _ & Hb1 & _ & Hr1).
    destruct (_set_frame w1 b1 o1 _ "x" (VNumber 2) Hb1 Hr1)
      as (b2 & o2 & w2 & Hrun2 & _ & _ & _ & _ & Hb2 & _ & Hr2).
    exists b2, w2. split_and!.
    + rewrite bind_unfold. change (UB.new docRef w) with (Return b0, w0).
      cbn beta iota. by rewrite (bind_Return _ _ _ _ _ Hrun1).
    + apply updateData_of_Some. exists o2. split; [done|].
      by rewrite insert_insert_eq, insert_empty in Hr2.
    + reflexivity.
Qed.

Lemma later_operation_replaces_earlier_witness :
  ∃ b' w' data',
    UB.invoke 5%positive (UB.call__deleteField "x") Mock.world
      = (Return b', w')
    ∧ UB.updateData_of w' b' = Some data'
    ∧ data' !! "x" = Some (VFieldValue deleteField_)
    ∧ length (filter (λ k, k = "x") (Object_keys data')) = 1
    ∧ size data' = size ({[ "x" := VNumber 1 ]} : gmap string value)
    ∧ ∀ k, k ≠ "x"
           → data' !! k = ({[ "x" := VNumber 1 ]} : gmap string value) !! k.
Proof.
  apply (proj1 later_operation_replaces_earlier Mock.world 5%positive
           {| ub_docRef := doc_ (collection_root Mock.firestore "users") "doc-1";
              ub_updateData := 4%positive |}
           {[ "x" := VNumber 1 ]} (UB.call__deleteField "x")).
  - reflexivity.
  - reflexivity.
  - exists (VNumber 1). reflexivity.
Defined.

Section commit.
Context {remote : Store}.

(** C5.  [commit] on a builder whose mapping is empty logs the warning and
    nothing else, so no call reaches the store, and its promise resolves.
    On a builder whose mapping is not empty it makes one call, [updateDoc]
    with the document reference and the whole mapping, and settles as that
    call does. *)
Theorem commit_writes_once_unless_empty (w : World) (b : loc)
  (o : UpdateBuilderObject) (data : gmap string value) :
  heap w !! b = Some (CellUpdateBuilder o) →
  heap w !! ub_updateData o = Some (CellRecord data) →
  (data = ∅ →
   UB.commit b w =
     (Return (),
      {| heap := heap w;
         log := log w ++ [console_warn
                  "Update commit called with no changes specified."] |}))
  ∧ (data ≠ ∅ →
     UB.commit b w =
       (updateDoc_response (log w) (ub_docRef o) data,
        {| heap := heap w;
           log := log w ++ [call_updateDoc (ub_docRef o) data] |})).
Proof.
  intros Hb Hr. unfold UB.commit.
  run_load Hb.
  run_load Hr.
  split; intros Hdata.
  - rewrite bool_decide_eq_true_2; [done|]. by apply Object_keys_empty.
  - rewrite bool_decide_eq_false_2; [done|]. by rewrite Object_keys_empty.
Qed.

End commit.

Lemma commit_writes_once_unless_empty_witness :
  UB.commit (remote := Mock.store) 7%positive Mock.world =
    (Return (),
     {| heap := heap Mock.world;
        log := [console_warn
                  "Update commit called with no changes specified."] |})
  ∧ UB.commit (remote := Mock.store) 5%positive Mock.world =
      (Return (),
       {| heap := heap Mock.world;
          log := [call_updateDoc
                    (doc_ (collection_root Mock.firestore "users") "doc-1")
                    {[ "x" := VNumber 1 ]}] |}).
Proof.
  split.
  - exact (proj1 (commit_writes_once_unless_empty (remote := Mock.store)
                    Mock.world 7%positive
                    {| ub_docRef :=
                         doc_ (collection_root Mock.firestore "users") "doc-1";
                       ub_updateData := 6%positive |}
                    ∅ eq_refl eq_refl) eq_refl).
  - refine (proj2 (commit_writes_once_unless_empty (remote := Mock.store)
                     Mock.world 5%positive
                     {| ub_docRef :=
                          doc_ (collection_root Mock.firestore "users") "doc-1";
                        ub_updateData := 4%positive |}
                     {[ "x" := VNumber 1 ]} eq_refl eq_refl) _).
    apply insert_non_empty.
Defined.

End UpdateBuilderFacts.

(** ** Immutability of the builders *)

Module BuilderFacts.
Import Js Sdk Schema Runtime RuntimeFacts.
Import QueryBuilderFacts UpdateBuilderFacts.

(** C2.  A chain method called on a builder [b] that holds a constraint
    sequence (or an update mapping) returns a builder at a location other
    than [b]; the object at [b] is the same after the call as before it, and
    so is the sequence (or the mapping) read through it.  This holds for the eight chain
    methods of the query builder and the six of the update builder. *)
Theorem chain_call_returns_new_builder_and_keeps_receiver :
  (∀ (w : World) (b : loc) (defs : list QueryConstraintDefinition)
     (m : QB.ChainCall),
     QB.constraints_of w b = Some defs →
     ∃ b' w',
       QB.invoke b m w = (Return b', w')
       ∧ b' ≠ b
       ∧ is_Some (QB.constraints_of w' b')
       ∧ heap w' !! b = heap w !! b
       ∧ QB.constraints_of w' b = Some defs)
  ∧ (∀ (w : World) (b : loc) (data : gmap string value) (m : UB.ChainCall),
       UB.updateData_of w b = Some data →
       ∃ b' w',
         UB.invoke b m w = (Return b', w')
         ∧ b' ≠ b
         ∧ is_Some (UB.updateData_of w' b')
         ∧ heap w' !! b = heap w !! b
         ∧ UB.updateData_of w' b = Some data).
Proof.
  split.
  - intros w b defs m Hdefs.
    pose proof Hdefs as (o & Hb & Ha)%constraints_of_Some.
    destruct (QueryBuilderFacts.invoke_is_append b m w) as [def ->].
    destruct (addConstraintDefinition_frame w b o defs def Hb Ha)
      as (b' & o' & w' & Hrun & Hnew & _ & _ & Hframe & Hb' & _ & _ & Ha').
    exists b', w'. split_and!; [done| | | |].
    + intros ->. congruence.
    + eexists. apply constraints_of_Some. eauto.
    + by rewrite Hb, (Hframe _ _ Hb).
    + apply constraints_of_Some. exists o. eauto.
  - intros w b data m Hdata.
    pose proof Hdata as (o & Hb & Hr)%updateData_of_Some.
    destruct (invoke_frame w b o data m Hb Hr)
      as (b' & o' & w' & Hrun & Hnew & _ & Hframe & Hb' & _ & Hr').
    exists b', w'. split_and!; [done| | | |].
    + intros ->. congruence.
    + eexists. apply updateData_of_Some. eauto.
    + by rewrite Hb, (Hframe _ _ Hb).
    + apply updateData_of_Some. exists o. eauto.
Qed.

Lemma chain_call_returns_new_builder_witness :
  (∃ b' w',
     QB.invoke 3%positive (QB.call_orderBy "age" None) Mock.world
       = (Return b', w')
     ∧ b' ≠ 3%positive
     ∧ is_Some (QB.constraints_of w' b')
     ∧ heap w' !! 3%positive = heap Mock.world !! 3%positive
     ∧ QB.constraints_of w' 3%positive = Some [LimitConstraint type_limit 5])
  ∧ (∃ b' w',
       UB.invoke 5%positive (UB.call__increment "x" 2) Mock.world
         = (Return b', w')
       ∧ b' ≠ 5%positive
       ∧ is_Some (UB.updateData_of w' b')
       ∧ heap w' !! 5%positive = heap Mock.world !! 5%positive
       ∧ UB.updateData_of w' 5%positive = Some {[ "x" := VNumber 1 ]}).
Proof.
  split.
  - apply (proj1 chain_call_returns_new_builder_and_keeps_receiver).
    reflexivity.
  - apply (proj2 chain_call_returns_new_builder_and_keeps_receiver).
    reflexivity.
Defined.

End BuilderFacts.

(** ** The collection resolver *)

Module CollectionRefFacts.
Import Js Sdk Schema Runtime JsFacts ListFacts RuntimeFacts.

Section facts.
Context {remote : Store}.

Lemma doc_run w this o id :
  heap w !! this = Some (CellCollectionRef o) →
  CR.doc this id w =
    (Return (doc_ (cr_ref o) id),
     {| heap := heap w; log := log w ++ [call_doc (doc_ (cr_ref o) id)] |}).
Proof.
  intros Hthis. unfold CR.doc.
  by run_load Hthis.
Qed.

(** Reading the prepared payload at a key. *)
Lemma withDefaults_lookup schema data k :
  CR.withDefaults (Some schema) data !! k =
    match fields schema !! k with
    | Some fieldDef =>
        if is_undefined (Js.read data k)
           && negb (is_undefined (defaultValue fieldDef))
        then Some (CR.injected fieldDef)
        else data !! k
    | None => data !! k
    end.
Proof.
  unfold CR.withDefaults, CR.defaults_for.
  rewrite lookup_union, map_lookup_imap.
  destruct (fields schema !! k) as [fieldDef|]; cbn.
  - destruct (is_undefined (Js.read data k)
              && negb (is_undefined (defaultValue fieldDef)));
      by destruct (data !! k).
  - by destruct (data !! k).
Qed.

Lemma for_in_NoDup (fields : gmap string FieldSchema) : NoDup (CR.for_in fields).
Proof. apply NoDup_fst_map_to_list. Qed.

Lemma elem_of_for_in (fields : gmap string FieldSchema) k :
  k ∈ CR.for_in fields ↔ is_Some (fields !! k).
Proof.
  unfold CR.for_in. rewrite list_elem_of_fmap. split.
  - intros ([k' v] & -> & Hin). apply elem_of_map_to_list in Hin. eauto.
  - intros [v Hv]. exists (k, v). split; [done|]. by apply elem_of_map_to_list.
Qed.

(** One round of the loop. *)
Lemma applyDefaults_field_run schema acc k fieldDef w :
  fields schema !! k = Some fieldDef →
  ∃ acc',
    CR.applyDefaults_field (fields schema) acc k w =
      (Return acc',
       {| heap := heap w;
          log := log w ++ (if CR.wants_timestamp (fields schema) acc k
                           then [call_fieldValue serverTimestamp_] else []) |})
    ∧ acc' !! k = CR.withDefaults (Some schema) acc !! k
    ∧ ∀ k', k' ≠ k → acc' !! k' = acc !! k'.
Proof.
  intros Hk. unfold CR.applyDefaults_field, CR.wants_timestamp.
  rewrite withDefaults_lookup, Hk. unfold CR.injected.
  destruct (strict_eq_string (defaultValue fieldDef) "serverTimestamp") eqn:Hts;
    destruct (is_undefined (Js.read acc k)) eqn:Hu; cbn [andb negb].
  - apply strict_eq_string_true in Hts. rewrite Hts. cbn [is_undefined negb].
    eexists. split; [reflexivity|]. split.
    + apply lookup_insert_eq.
    + intros k' Hk'. by rewrite lookup_insert_ne.
  - rewrite andb_false_r. exists acc. rewrite app_nil_r. by destruct w.
  - rewrite andb_true_r.
    destruct (is_undefined (defaultValue fieldDef)); cbn [negb].
    + exists acc. rewrite app_nil_r. by destruct w.
    + eexists. rewrite app_nil_r. split; [by destruct w|]. split.
      * apply lookup_insert_eq.
      * intros k' Hk'. by rewrite lookup_insert_ne.
  - rewrite andb_false_r. exists acc. rewrite app_nil_r. by destruct w.
Qed.

Lemma wants_timestamp_ext fields (acc acc' : gmap string value) k :
  acc' !! k = acc !! k →
  CR.wants_timestamp fields acc' k = CR.wants_timestamp fields acc k.
Proof. intros E. unfold CR.wants_timestamp. by rewrite (read_ext _ _ _ E). Qed.

Lemma withDefaults_lookup_ext schema (acc acc' : gmap string value) k :
  acc' !! k = acc !! k →
  CR.withDefaults (Some schema) acc' !! k
  = CR.withDefaults (Some schema) acc !! k.
Proof.
  intros E. rewrite !withDefaults_lookup. by rewrite (read_ext _ _ _ E), E.
Qed.

(** The loop over any duplicate-free list of declared fields: the fields of
    the list are prepared, the others untouched, and the factory is called
    once for each field of the list that wants the timestamp. *)
Lemma applyDefaults_loop_run schema ks :
  NoDup ks →
  (∀ k, k ∈ ks → is_Some (fields schema !! k)) →
  ∀ acc w,
  ∃ out,
    foldM (CR.applyDefaults_field (fields schema)) acc ks w =
      (Return out,
       {| heap := heap w;
          log := log w ++
            replicate
              (length (filter (λ k, CR.wants_timestamp (fields schema) acc k) ks))
              (call_fieldValue serverTimestamp_) |})
    ∧ ∀ k, out !! k = if decide (k ∈ ks)
                      then CR.withDefaults (Some schema) acc !! k
                      else acc !! k.
Proof.
  induction 1 as [|k0 ks Hk0 Hnd IH]; intros Hdecl acc w.
  - exists acc. split.
    + cbn. rewrite app_nil_r. by destruct w.
    + intros k. rewrite decide_False; [done|]. apply not_elem_of_nil.
  - destruct (Hdecl k0) as [fieldDef Hdef]; [by left|].
    destruct (applyDefaults_field_run schema acc k0 fieldDef w Hdef)
      as (acc1 & Hrun1 & Hat & Hother).
    destruct (IH (λ k Hk, Hdecl k (list_elem_of_further _ _ _ Hk)) acc1
                {| heap := heap w;
                   log := log w ++
                     (if CR.wants_timestamp (fields schema) acc k0
                      then [call_fieldValue serverTimestamp_] else []) |})
      as (out & Hrun & Hout).
    exists out. split.
    + cbn [foldM]. rewrite (bind_Return _ _ _ _ _ Hrun1), Hrun.
      cbn [heap log]. do 2 f_equal. rewrite <- app_assoc. f_equal.
      rewrite filter_cons.
      assert (filter (λ k, CR.wants_timestamp (fields schema) acc1 k) ks
              = filter (λ k, CR.wants_timestamp (fields schema) acc k) ks) as ->.
      { apply filter_ext_elem_of. intros k Hk.
        rewrite (wants_timestamp_ext _ acc acc1 k); [done|].
        apply Hother. intros ->. done. }
      destruct (CR.wants_timestamp (fields schema) acc k0); done.
    + intros k. rewrite Hout.
      destruct (decide (k = k0)) as [->|Hne].
      * rewrite decide_False by done.
        rewrite decide_True by (by left). done.
      * destruct (decide (k ∈ ks)) as [Hin|Hnin].
        -- rewrite decide_True by (by right).
           apply withDefaults_lookup_ext. by apply Hother.
        -- rewrite decide_False.
           ++ by apply Hother.
           ++ intros [->|]%elem_of_cons; done.
Qed.

(** [applyDefaults] computes the prepared payload and calls the
    server-timestamp factory once per field that wants it. *)
Lemma applyDefaults_run w this o data :
  heap w !! this = Some (CellCollectionRef o) →
  CR.applyDefaults this data w =
    (Return (CR.withDefaults (cr_schema o) data),
     {| heap := heap w;
        log := log w ++ replicate (CR.timestamps_wanted (cr_schema o) data)
                          (call_fieldValue serverTimestamp_) |}).
Proof.
  intros Hthis. unfold CR.applyDefaults.
  run_load Hthis.
  destruct (cr_schema o) as [schema|]; cbn [CR.timestamps_wanted].
  - destruct (applyDefaults_loop_run schema (CR.for_in (fields schema))
                (for_in_NoDup _) (λ k, proj1 (elem_of_for_in _ k)) data w)
      as (out & -> & Hout).
    do 2 f_equal. apply map_eq. intros k. rewrite Hout.
    destruct (decide (k ∈ CR.for_in (fields schema))) as [|Hnin]; [done|].
    rewrite withDefaults_lookup.
    destruct (fields schema !! k) eqn:Hk; [|done].
    destruct Hnin. apply elem_of_for_in. eauto.
  - cbn. rewrite app_nil_r. by destruct w.
Qed.

(** The order in which the loop visits the declared fields does not matter:
    any enumeration of the keys gives the payload and the log of [for_in]. *)
Lemma applyDefaults_loop_order_irrelevant schema ks acc w :
  ks ≡ₚ CR.for_in (fields schema) →
  foldM (CR.applyDefaults_field (fields schema)) acc ks w
  = foldM (CR.applyDefaults_field (fields schema)) acc
      (CR.for_in (fields schema)) w.
Proof.
  intros Hperm.
  assert (Hnd : NoDup ks) by (rewrite Hperm; apply for_in_NoDup).
  assert (Hdecl : ∀ k, k ∈ ks → is_Some (fields schema !! k)).
  { intros k Hk. apply elem_of_for_in. by rewrite <- Hperm. }
  destruct (applyDefaults_loop_run schema ks Hnd Hdecl acc w)
    as (out1 & -> & Hout1).
  destruct (applyDefaults_loop_run schema (CR.for_in (fields schema))
              (for_in_NoDup _) (λ k, proj1 (elem_of_for_in _ k)) acc w)
    as (out2 & -> & Hout2).
  f_equal; [f_equal|f_equal].
  - apply map_eq. intros k. rewrite Hout1, Hout2.
    destruct (decide (k ∈ ks)) as [Hk|Hk];
      [rewrite decide_True|rewrite decide_False]; try done;
      by rewrite <- Hperm.
  - do 2 f_equal. by rewrite Hperm.
Qed.

End facts.

(** *** The prepared payload *)

Lemma injected_defined fieldDef :
  defaultValue fieldDef ≠ VUndefined → CR.injected fieldDef ≠ VUndefined.
Proof.
  unfold CR.injected.
  destruct (strict_eq_string (defaultValue fieldDef) "serverTimestamp"); done.
Qed.

Lemma injected_not_the_directive fieldDef :
  CR.injected fieldDef ≠ VString "serverTimestamp".
Proof.
  unfold CR.injected.
  destruct (strict_eq_string (defaultValue fieldDef) "serverTimestamp") eqn:E;
    [done|]. by apply strict_eq_string_false.
Qed.

Lemma withDefaults_supplied schema data k v :
  data !! k = Some v → v ≠ VUndefined →
  CR.withDefaults schema data !! k = Some v.
Proof.
  intros Hk Hv. destruct schema as [schema|]; [|done].
  rewrite withDefaults_lookup, (read_own _ _ _ Hk).
  apply is_undefined_false in Hv. rewrite Hv.
  by destruct (fields schema !! k).
Qed.

Lemma withDefaults_omitted schema data k fieldDef :
  fields schema !! k = Some fieldDef →
  defaultValue fieldDef ≠ VUndefined →
  CR.reads_undefined data k →
  CR.withDefaults (Some schema) data !! k = Some (CR.injected fieldDef).
Proof.
  intros Hk Hd Ho. rewrite withDefaults_lookup, Hk.
  apply is_undefined_true in Ho. apply is_undefined_false in Hd.
  by rewrite Ho, Hd.
Qed.

(** A declared field that the payload does not hold and whose name every
    object inherits is not given its default. *)
Lemma withDefaults_inherited schema data k :
  data !! k = None → k ∈ Object_prototype_names →
  CR.withDefaults schema data !! k = None.
Proof.
  intros Hk Hp. destruct schema as [schema|]; [|done].
  rewrite withDefaults_lookup, (read_inherited _ _ Hk Hp), Hk.
  by destruct (fields schema !! k).
Qed.


Lemma reads_undefined_omits data k :
  CR.reads_undefined data k → CR.omits data k.
Proof. apply read_undefined_get. Qed.

Lemma withDefaults_undeclared schema data k :
  fields schema !! k = None →
  CR.withDefaults (Some schema) data !! k = data !! k.
Proof. intros Hk. by rewrite withDefaults_lookup, Hk. Qed.

Lemma withDefaults_no_directive schema data k fieldDef :
  fields schema !! k = Some fieldDef →
  defaultValue fieldDef = VUndefined →
  CR.withDefaults (Some schema) data !! k = data !! k.
Proof.
  intros Hk Hd. rewrite withDefaults_lookup, Hk, Hd. cbn.
  by rewrite andb_false_r.
Qed.

(** A field is either left as the payload has it, or reads as [undefined]
    in the payload and is given what its directive injects. *)
Lemma withDefaults_cases schema data k :
  CR.withDefaults schema data !! k = data !! k
  ∨ ∃ s fieldDef,
      schema = Some s ∧ fields s !! k = Some fieldDef
      ∧ defaultValue fieldDef ≠ VUndefined ∧ CR.reads_undefined data k
      ∧ CR.withDefaults schema data !! k = Some (CR.injected fieldDef).
Proof.
  destruct schema as [s|]; [|by left].
  rewrite withDefaults_lookup.
  destruct (fields s !! k) as [fieldDef|] eqn:Hk; [|by left].
  destruct (is_undefined (Js.read data k)) eqn:Hu; [|by left].
  destruct (is_undefined (defaultValue fieldDef)) eqn:Hd; [by left|].
  right. exists s, fieldDef. split_and!; try done.
  - by apply is_undefined_false.
  - by apply is_undefined_true.
Qed.

Lemma wants_timestamp_reads_undefined fields data k :
  CR.wants_timestamp fields data k → CR.reads_undefined data k.
Proof.
  unfold CR.wants_timestamp, CR.reads_undefined.
  destruct (fields !! k); [|done].
  intros [_ Hu]%andb_True. by apply is_undefined_true, Is_true_true.
Qed.

Lemma wants_timestamp_omits fields data k :
  CR.wants_timestamp fields data k → CR.omits data k.
Proof. intros ?%wants_timestamp_reads_undefined. by apply reads_undefined_omits. Qed.

Lemma wants_timestamp_after schema data k :
  ¬ CR.wants_timestamp (fields schema)
      (CR.withDefaults (Some schema) data) k.
Proof.
  unfold CR.wants_timestamp.
  destruct (fields schema !! k) as [fieldDef|] eqn:Hk; [|by intros ?].
  intros [Hts Hu]%andb_True.
  apply Is_true_true, strict_eq_string_true in Hts.
  apply Is_true_true, is_undefined_true in Hu.
  pose proof (withDefaults_lookup schema data k) as Hat.
  rewrite Hk, Hts in Hat. cbn [is_undefined negb] in Hat.
  rewrite andb_true_r in Hat.
  destruct (is_undefined (Js.read data k)) eqn:Hd.
  - rewrite (read_own _ _ _ Hat) in Hu. unfold CR.injected in Hu.
    by rewrite Hts in Hu.
  - apply is_undefined_false in Hd. apply Hd.
    rewrite <- Hu. symmetry. by apply read_ext.
Qed.

Lemma timestamps_wanted_after schema data :
  CR.timestamps_wanted schema (CR.withDefaults schema data) = 0.
Proof.
  destruct schema as [schema|]; [|done]. unfold CR.timestamps_wanted.
  rewrite filter_none; [done|]. intros k _. apply wants_timestamp_after.
Qed.

Lemma timestamps_wanted_none schema data :
  (∀ s k, schema = Some s → ¬ CR.wants_timestamp (fields s) data k) →
  CR.timestamps_wanted schema data = 0.
Proof.
  intros Hnone. destruct schema as [schema|]; [|done].
  unfold CR.timestamps_wanted. rewrite filter_none; [done|].
  intros k _. by apply Hnone.
Qed.

Lemma timestamps_wanted_pos schema data k :
  CR.wants_timestamp (fields schema) data k →
  ∃ n, CR.timestamps_wanted (Some schema) data = S n.
Proof.
  intros Hw. unfold CR.timestamps_wanted.
  assert (k ∈ filter (λ k, CR.wants_timestamp (fields schema) data k)
                (CR.for_in (fields schema))) as Hin.
  { apply list_elem_of_filter. split; [done|]. apply elem_of_for_in.
    unfold CR.wants_timestamp in Hw. by destruct (fields schema !! k). }
  destruct (filter _ _); [by apply elem_of_nil in Hin|]. cbn. eauto.
Qed.

Lemma withDefaults_idempotent schema data :
  CR.withDefaults schema (CR.withDefaults schema data)
  = CR.withDefaults schema data.
Proof.
  apply map_eq. intros k.
  destruct (withDefaults_cases schema (CR.withDefaults schema data) k)
    as [|(s & fieldDef & -> & Hk & Hd & Ho & _)]; [done|].
  exfalso. unfold CR.reads_undefined in Ho.
  pose proof (withDefaults_lookup s data k) as Hat. rewrite Hk in Hat.
  apply is_undefined_false in Hd. rewrite Hd, andb_true_r in Hat.
  destruct (is_undefined (Js.read data k)) eqn:Hu.
  - rewrite (read_own _ _ _ Hat) in Ho. apply is_undefined_false in Hd.
    by apply (injected_defined fieldDef).
  - apply is_undefined_false in Hu. apply Hu.
    rewrite <- Ho. symmetry. by apply read_ext.
Qed.




Section theorems.
Context {remote : Store}.

Lemma set_run w this o id data options :
  heap w !! this = Some (CellCollectionRef o) →
  let docRef := doc_ (cr_ref o) id in
  let dataToWrite :=
    if CR.isMerge options then data else CR.withDefaults (cr_schema o) data in
  let before :=
    log w ++ [call_doc docRef]
      ++ replicate (if CR.isMerge options then 0
                    else CR.timestamps_wanted (cr_schema o) data)
           (call_fieldValue serverTimestamp_) in
  CR.set this id data options w =
    (setDoc_response before docRef dataToWrite (default ∅ options),
     {| heap := heap w;
        log := before
                 ++ [call_setDoc docRef dataToWrite (default ∅ options)] |}).
Proof.
  intros Hthis docRef dataToWrite before. unfold CR.set.
  rewrite (bind_Return _ _ _ _ _ (doc_run _ _ _ id Hthis)).
  subst dataToWrite before. destruct (CR.isMerge options); cbn [negb].
  - reflexivity.
  - erewrite bind_Return; [|by apply applyDefaults_run].
    unfold sdk_setDoc, round_trip. cbn [heap log].
    by rewrite <- !app_assoc.
Qed.


(** C6, amended.  [applyDefaults] returns a payload in which every field
    that the payload has with a value other than [undefined] holds that
    value.  The server-timestamp factory is called once per declared field
    that wants the timestamp, and such a field never wants it.  Applied to
    its own result, [applyDefaults] returns that result and calls nothing.
    [add] hands the result to [addDoc]. *)
Theorem applyDefaults_keeps_supplied_fields_and_is_idempotent (w : World)
  (this : loc) (o : CollectionRefObject) (data : gmap string value) :
  heap w !! this = Some (CellCollectionRef o) →
  ∃ out w',
    CR.applyDefaults this data w = (Return out, w')
    ∧ (∀ k v, data !! k = Some v → v ≠ VUndefined → out !! k = Some v)
    ∧ heap w' = heap w
    ∧ log w' = log w ++ replicate (CR.timestamps_wanted (cr_schema o) data)
                          (call_fieldValue serverTimestamp_)
    ∧ (∀ schema k v,
         cr_schema o = Some schema → data !! k = Some v → v ≠ VUndefined →
         ¬ CR.wants_timestamp (fields schema) data k)
    ∧ CR.applyDefaults this out w' = (Return out, w')
    ∧ CR.add this data w =
        (addDoc_response (log w') (cr_ref o) out,
         {| heap := heap w;
            log := log w' ++ [call_addDoc (cr_ref o) out] |}).
Proof.
  intros Hthis. eexists _, _. split; [by apply applyDefaults_run|].
  cbn [heap log]. split_and!.
  - intros k v Hk Hv. by apply withDefaults_supplied.
  - done.
  - done.
  - intros schema k v _ Hk Hv Hw%wants_timestamp_omits.
    unfold CR.omits, Js.get in Hw. rewrite Hk in Hw. done.
  - rewrite (applyDefaults_run _ this o) by done. cbn [heap log].
    rewrite withDefaults_idempotent, timestamps_wanted_after.
    cbn. by rewrite app_nil_r.
  - unfold CR.add.
    erewrite bind_Return; [|by apply applyDefaults_run].
    erewrite bind_Return; [|by apply load_collectionRef_Some].
    reflexivity.
Qed.

(** C7.  Let [getDoc] resolve with a snapshot.  If the snapshot says the
    document exists, the promise of [get] resolves with the data of the
    snapshot; if it says the document does not exist, the promise resolves
    with [undefined].  In both cases it resolves, after one [getDoc]. *)
Theorem get_returns_data_or_undefined (w : World) (this : loc)
  (o : CollectionRefObject) (id : string) (snapshot : DocumentSnapshot) :
  heap w !! this = Some (CellCollectionRef o) →
  let docRef := doc_ (cr_ref o) id in
  getDoc_response (log w ++ [call_doc docRef]) docRef = Return snapshot →
  let w' := {| heap := heap w;
               log := log w ++ [call_doc docRef; call_getDoc docRef] |} in
  (snapshot_exists snapshot = true →
   CR.get this id w = (Return (snapshot_data snapshot), w'))
  ∧ (snapshot_exists snapshot = false →
     CR.get this id w = (Return None, w')).
Proof.
  intros Hthis docRef Hresp w'.
  assert (CR.get this id w =
            (Return (if snapshot_exists snapshot then snapshot_data snapshot
                     else None), w')) as ->.
  { unfold CR.get.
    rewrite (bind_Return _ _ _ _ _ (doc_run _ _ _ id Hthis)).
    rewrite bind_unfold. unfold sdk_getDoc, round_trip. cbn [heap log].
    fold docRef. rewrite Hresp. subst w'. cbn. by rewrite <- app_assoc. }
  by split; intros ->.
Qed.

Lemma lookup_subCollection_None o name :
  CR.undeclared o name →
  ¬ (CR.declares_others o name ∧ name ∈ Object_prototype_names) →
  CR.lookup_subCollection o name = None.
Proof.
  unfold CR.lookup_subCollection.
  intros [Hs|(schema & Hs & [Hsubs|(subs & Hsubs & Hn)])] Hnot; rewrite Hs; cbn;
    rewrite ?Hsubs; cbn; [done..|].
  rewrite Hn. destruct (Object_prototype name) as [v|] eqn:Hp; [|done].
  destruct Hnot. split; [by exists schema, subs|].
  by apply Object_prototype_Some in Hp as [? _].
Qed.

Lemma lookup_subCollection_inherited o name :
  CR.declares_others o name → name ∈ Object_prototype_names →
  CR.lookup_subCollection o name = Some CR.inherited_entry.
Proof.
  unfold CR.lookup_subCollection. intros (schema & subs & Hs & Hsubs & Hn) Hp.
  rewrite Hs. cbn. rewrite Hsubs. cbn. rewrite Hn.
  by rewrite (proj2 (Object_prototype_Some name _) (conj Hp eq_refl)).
Qed.

Lemma lookup_subCollection_Some o name def :
  CR.declares o name def → CR.lookup_subCollection o name = Some def.
Proof.
  unfold CR.lookup_subCollection. intros (schema & subs & Hs & Hsubs & Hn).
  rewrite Hs. cbn. rewrite Hsubs. cbn. by rewrite Hn.
Qed.

Lemma not_found_message_mentions subCollectionId id :
  CR.mentions (CR.not_found_message subCollectionId id) subCollectionId
  ∧ CR.mentions (CR.not_found_message subCollectionId id) id.
Proof.
  unfold CR.mentions, CR.not_found_message. split.
  - by eexists _, _.
  - exists ("Sub-collection '" +:+ subCollectionId
            +:+ "' not found in schema for collection '"), "'".
    by rewrite <- !string_app_assoc.
Qed.

Lemma class_missing_message_mentions subCollectionId id :
  CR.mentions (CR.class_missing_message subCollectionId id) subCollectionId
  ∧ CR.mentions (CR.class_missing_message subCollectionId id) id.
Proof.
  unfold CR.mentions, CR.class_missing_message. split.
  - by eexists _, _.
  - exists ("Collection class definition missing for sub-collection '"
            +:+ subCollectionId +:+ "' in schema for collection '"), "'".
    by rewrite <- !string_app_assoc.
Qed.

Lemma construct_run cls firestore collectionId schema parentRef w :
  let r := fresh (dom (heap w)) in
  CR.construct cls firestore collectionId schema parentRef w =
    (Return r,
     {| heap := <[r := CellCollectionRef {|
                   cr_class := Some cls;
                   cr_ref := collection_sub parentRef collectionId;
                   cr_firestore := firestore;
                   cr_collectionId := collectionId;
                   cr_schema := schema |}]> (heap w);
        log := log w ++ [call_new cls firestore collectionId schema
                           (Some parentRef);
                         call_collection
                           (collection_sub parentRef collectionId)] |}).
Proof.
  intros r. unfold CR.construct, emit. rewrite bind_unfold. cbn [heap log].
  unfold CR.new, sdk_collection_sub. rewrite bind_unfold, factory_run.
  cbn [alloc heap log]. by rewrite <- app_assoc.
Qed.

Lemma subCollection_run w this o parentId subCollectionId subSchema def cls :
  heap w !! this = Some (CellCollectionRef o) →
  CR.declares o subCollectionId def →
  collectionClass def = Some cls →
  let parentDocRef := doc_ (cr_ref o) parentId in
  let r := fresh (dom (heap w)) in
  CR.subCollection this parentId subCollectionId subSchema w =
    (Return r,
     {| heap := <[r := CellCollectionRef {|
                   cr_class := Some cls;
                   cr_ref := collection_sub parentDocRef subCollectionId;
                   cr_firestore := cr_firestore o;
                   cr_collectionId := subCollectionId;
                   cr_schema := schema def |}]> (heap w);
        log := log w ++ [call_doc parentDocRef;
                         call_new cls (cr_firestore o) subCollectionId
                           (schema def) (Some parentDocRef);
                         call_collection
                           (collection_sub parentDocRef subCollectionId)] |}).
Proof.
  intros Hthis Hdef%lookup_subCollection_Some Hcls parentDocRef r.
  unfold CR.subCollection.
  run_load Hthis.
  rewrite Hdef, Hcls.
  rewrite (bind_Return _ _ _ _ _ (doc_run _ _ _ parentId Hthis)).
  rewrite construct_run. cbn [heap log]. by rewrite <- app_assoc.
Qed.

(** C8.  [subCollection] throws an [Error], with the world as it was (no
    call of the SDK has been made, not even [doc]), when the resolver has no
    schema or the schema does not declare the name, and when the declared
    entry has no class.  In the first case the message has the name asked for
    and the [id] of the collection reference of the resolver in it.  It is
    [Sub-collection '<name>' not found in schema for collection '<id>'],
    except when the schema has sub-collections and the name is one of
    [Object.prototype]: the inherited member passes for an entry without a
    class, and the message is that of the second case,
    [Collection class definition missing for sub-collection '<name>' in
    schema for collection '<id>'].  When the entry has a class, the call
    returns a location that was not in use, where an instance of that class
    now is, with its reference under the document [parentId] of this
    collection; every object that existed is as it was. *)
Theorem subCollection_fails_fast_or_returns_new_resolver (w : World)
  (this : loc) (o : CollectionRefObject) (parentId subCollectionId : string)
  (subSchema : option CollectionSchema) :
  heap w !! this = Some (CellCollectionRef o) →
  let id := collection_id (cr_ref o) in
  (CR.undeclared o subCollectionId →
   ∃ message,
     CR.subCollection this parentId subCollectionId subSchema w
       = (Throw (Error message), w)
     ∧ CR.mentions message subCollectionId
     ∧ CR.mentions message id
     ∧ (¬ (CR.declares_others o subCollectionId
           ∧ subCollectionId ∈ Object_prototype_names) →
        message = CR.not_found_message subCollectionId id)
     ∧ (CR.declares_others o subCollectionId →
        subCollectionId ∈ Object_prototype_names →
        message = CR.class_missing_message subCollectionId id))
  ∧ (∀ def,
       CR.declares o subCollectionId def →
       collectionClass def = None →
       CR.subCollection this parentId subCollectionId subSchema w =
         (Throw (Error (CR.class_missing_message subCollectionId id)), w))
  ∧ (∀ def cls,
       CR.declares o subCollectionId def →
       collectionClass def = Some cls →
       ∃ r w',
         CR.subCollection this parentId subCollectionId subSchema w
           = (Return r, w')
         ∧ heap w !! r = None
         ∧ heap w' !! r = Some (CellCollectionRef {|
             cr_class := Some cls;
             cr_ref := collection_sub (doc_ (cr_ref o) parentId)
                         subCollectionId;
             cr_firestore := cr_firestore o;
             cr_collectionId := subCollectionId;
             cr_schema := schema def |})
         ∧ ∀ l c, heap w !! l = Some c → heap w' !! l = Some c).
Proof.
  intros Hthis id. split_and!.
  - intros Hno.
    destruct (decide (subCollectionId ∈ Object_prototype_names)) as [Hp|Hp].
    + destruct Hno as [Hs|(schema & Hs & [Hsubs|(subs & Hsubs & Hn)])].
      * exists (CR.not_found_message subCollectionId id).
        destruct (not_found_message_mentions subCollectionId id).
        split_and!; try done.
        -- unfold CR.subCollection. run_load Hthis.
           unfold CR.lookup_subCollection. by rewrite Hs.
        -- intros (? & ? & ? & _) _. congruence.
      * exists (CR.not_found_message subCollectionId id).
        destruct (not_found_message_mentions subCollectionId id).
        split_and!; try done.
        -- unfold CR.subCollection. run_load Hthis.
           unfold CR.lookup_subCollection. rewrite Hs. cbn. by rewrite Hsubs.
        -- intros (? & ? & ? & ? & _) _. congruence.
      * exists (CR.class_missing_message subCollectionId id).
        destruct (class_missing_message_mentions subCollectionId id).
        assert (CR.declares_others o subCollectionId) as Hothers
          by (by exists schema, subs).
        split_and!; try done.
        -- unfold CR.subCollection. run_load Hthis.
           by rewrite (lookup_subCollection_inherited _ _ Hothers Hp).
        -- intros Hnot. by destruct Hnot.
    + exists (CR.not_found_message subCollectionId id).
      destruct (not_found_message_mentions subCollectionId id).
      split_and!; try done.
      unfold CR.subCollection. run_load Hthis.
      rewrite lookup_subCollection_None; [done..|]. by intros [_ ?].
  - intros def Hdef%lookup_subCollection_Some Hcls. unfold CR.subCollection.
    run_load Hthis.
    by rewrite Hdef, Hcls.
  - intros def cls Hdef Hcls. eexists _, _.
    split; [by apply (subCollection_run w this o)|]. cbn [heap].
    pose proof (fresh_heap_None (heap w)) as Hfresh. split_and!.
    + done.
    + apply lookup_insert_eq.
    + intros l c Hl. rewrite lookup_insert_ne; [done|]. congruence.
Qed.

(** C9.  The [subSchema] argument has no effect: two calls that differ in it
    only have the same outcome and leave the same world.  When the call
    succeeds, the class of the declared entry is instantiated with the
    database handle, the name, the schema of the declared entry and the
    reference of the parent document, and the instance holds the schema of
    the entry. *)
Theorem subCollection_ignores_subSchema (w : World) (this : loc)
  (parentId subCollectionId : string)
  (subSchema1 subSchema2 : option CollectionSchema) :
  CR.subCollection this parentId subCollectionId subSchema1 w
  = CR.subCollection this parentId subCollectionId subSchema2 w
  ∧ ∀ o def cls,
      heap w !! this = Some (CellCollectionRef o) →
      CR.declares o subCollectionId def →
      collectionClass def = Some cls →
      ∃ r w',
        CR.subCollection this parentId subCollectionId subSchema1 w
          = (Return r, w')
        ∧ log w' =
            log w ++ [call_doc (doc_ (cr_ref o) parentId);
                      call_new cls (cr_firestore o) subCollectionId
                        (schema def) (Some (doc_ (cr_ref o) parentId));
                      call_collection
                        (collection_sub (doc_ (cr_ref o) parentId)
                           subCollectionId)]
        ∧ ∃ o', heap w' !! r = Some (CellCollectionRef o')
                ∧ cr_schema o' = schema def.
Proof.
  split; [reflexivity|].
  intros o def cls Hthis Hdef Hcls. eexists _, _.
  split; [by apply (subCollection_run w this o)|]. cbn [heap log].
  split; [done|]. eexists. split; [apply lookup_insert_eq|done].
Qed.

End theorems.

(** *** The theorems at work on the mock store *)


Lemma applyDefaults_witness :
  ∃ out w',
    CR.applyDefaults 1%positive
      {[ "name" := VString "a"; "createdAt" := VHost 1 ]} Mock.world
      = (Return out, w')
    ∧ out !! "createdAt" = Some (VHost 1)
    ∧ log w' = []
    ∧ CR.applyDefaults 1%positive out w' = (Return out, w').
Proof.
  destruct (applyDefaults_keeps_supplied_fields_and_is_idempotent
              (remote := Mock.store) Mock.world 1%positive Mock.users
              {[ "name" := VString "a"; "createdAt" := VHost 1 ]} eq_refl)
    as (out & w' & Hrun & Hkeep & _ & Hlog & _ & Hagain & _).
  exists out, w'. split_and!.
  - exact Hrun.
  - apply Hkeep; [vm_compute; reflexivity|done].
  - rewrite Hlog. vm_compute. reflexivity.
  - exact Hagain.
Defined.


(** C6 fails as stated.  The payload [{name: 'a', createdAt: undefined}] has
    the field [createdAt]; [applyDefaults] replaces what it holds by the
    sentinel, and calls [serverTimestamp()] for it. *)
Lemma applyDefaults_overwrites_present_undefined :
  let data : gmap string value :=
    {[ "name" := VString "a"; "createdAt" := VUndefined ]} in
  ∃ out w',
    CR.applyDefaults 1%positive data Mock.world = (Return out, w')
    ∧ is_Some (data !! "createdAt")
    ∧ out !! "createdAt" ≠ data !! "createdAt"
    ∧ out !! "createdAt" = Some (VFieldValue serverTimestamp_)
    ∧ log w' = [call_fieldValue serverTimestamp_].
Proof.
  eexists _, _. split; [vm_compute; reflexivity|]. split_and!.
  - eexists. vm_compute. reflexivity.
  - vm_compute. discriminate.
  - vm_compute. reflexivity.
  - reflexivity.
Qed.

(** C10.  The schema declares the field [constructor] with the directive
    ['serverTimestamp'] and the payload is empty, so it omits the field.
    [applyDefaults] returns a payload without the field and does not call
    [serverTimestamp()]: on the copy of the payload, [constructor] reads as
    the member every object inherits, not as [undefined].  The ordinary
    field [note] of the same schema is given its default. *)
Theorem serverTimestamp_directive_misses_inherited_names :
  fields Mock.auditSchema !! "constructor"
  = Some {| defaultValue := VString "serverTimestamp" |}
  ∧ CR.omits ∅ "constructor"
  ∧ CR.applyDefaults 1%positive ∅ Mock.audit_world
    = (Return {[ "note" := VString "n" ]}, Mock.audit_world).
Proof. vm_compute. split_and!; reflexivity. Qed.

Lemma get_returns_data_or_undefined_witness :
  CR.get (remote := Mock.store) 1%positive "doc-1" Mock.world
  = (Return (Some {[ "name" := VString "a" ]}),
     {| heap := heap Mock.world;
        log := [call_doc (doc_ (collection_root Mock.firestore "users") "doc-1");
                call_getDoc
                  (doc_ (collection_root Mock.firestore "users") "doc-1")] |})
  ∧ CR.get (remote := Mock.store) 1%positive "missing-id" Mock.world
    = (Return None,
       {| heap := heap Mock.world;
          log := [call_doc
                    (doc_ (collection_root Mock.firestore "users") "missing-id");
                  call_getDoc
                    (doc_ (collection_root Mock.firestore "users")
                       "missing-id")] |}).
Proof.
  split.
  - exact (proj1 (get_returns_data_or_undefined (remote := Mock.store)
                    Mock.world 1%positive Mock.users "doc-1"
                    {| snapshot_exists := true;
                       snapshot_data := Some {[ "name" := VString "a" ]} |}
                    eq_refl eq_refl) eq_refl).
  - exact (proj2 (get_returns_data_or_undefined (remote := Mock.store)
                    Mock.world 1%positive Mock.users "missing-id"
                    {| snapshot_exists := false; snapshot_data := None |}
                    eq_refl eq_refl) eq_refl).
Defined.

Lemma users_declares_comments :
  CR.declares Mock.users "comments"
    {| schema := Some Mock.commentSchema;
       collectionClass := Some Mock.CommentsRef |}.
Proof.
  eexists Mock.userSchema, _. split_and!; [reflexivity..|].
  vm_compute. reflexivity.
Qed.

Lemma users_declares_drafts :
  CR.declares Mock.users "drafts"
    {| schema := None; collectionClass := None |}.
Proof.
  eexists Mock.userSchema, _. split_and!; [reflexivity..|].
  vm_compute. reflexivity.
Qed.

Lemma users_undeclared_unknown : CR.undeclared Mock.users "unknown".
Proof.
  right. exists Mock.userSchema. split; [reflexivity|]. right.
  eexists. split; [reflexivity|]. vm_compute. reflexivity.
Qed.

Lemma users_undeclared_constructor : CR.undeclared Mock.users "constructor".
Proof.
  right. exists Mock.userSchema. split; [reflexivity|]. right.
  eexists. split; [reflexivity|]. vm_compute. reflexivity.
Qed.

Lemma users_declares_others_than_constructor :
  CR.declares_others Mock.users "constructor".
Proof.
  eexists Mock.userSchema, _. split_and!; [reflexivity..|].
  vm_compute. reflexivity.
Qed.

Lemma subCollection_witness :
  CR.subCollection (remote := Mock.store) 1%positive "u1" "unknown" None
    Mock.world
  = (Throw (Error
       "Sub-collection 'unknown' not found in schema for collection 'users'"),
     Mock.world)
  ∧ CR.subCollection (remote := Mock.store) 1%positive "u1" "constructor" None
      Mock.world
    = (Throw (Error
         "Collection class definition missing for sub-collection 'constructor' in schema for collection 'users'"),
       Mock.world)
  ∧ CR.subCollection (remote := Mock.store) 1%positive "u1" "drafts" None
      Mock.world
    = (Throw (Error
         "Collection class definition missing for sub-collection 'drafts' in schema for collection 'users'"),
       Mock.world)
  ∧ ∃ r w',
      CR.subCollection (remote := Mock.store) 1%positive "u1" "comments" None
        Mock.world = (Return r, w')
      ∧ heap Mock.world !! r = None
      ∧ heap w' !! r = Some (CellCollectionRef {|
          cr_class := Some Mock.CommentsRef;
          cr_ref := collection_sub
                      (doc_ (collection_root Mock.firestore "users") "u1")
                      "comments";
          cr_firestore := Mock.firestore;
          cr_collectionId := "comments";
          cr_schema := Some Mock.commentSchema |})
      ∧ ∀ l c, heap Mock.world !! l = Some c → heap w' !! l = Some c.
Proof.
  split_and!.
  - destruct (proj1 (subCollection_fails_fast_or_returns_new_resolver
                       (remote := Mock.store) Mock.world 1%positive Mock.users
                       "u1" "unknown" None eq_refl) users_undeclared_unknown)
      as (message & Hrun & _ & _ & Hmessage & _).
    etrans; [exact Hrun|]. rewrite Hmessage; [vm_compute; reflexivity|].
    intros [_ Hin]. revert Hin. apply Object_prototype_None.
    vm_compute. reflexivity.
  - destruct (proj1 (subCollection_fails_fast_or_returns_new_resolver
                       (remote := Mock.store) Mock.world 1%positive Mock.users
                       "u1" "constructor" None eq_refl)
                users_undeclared_constructor)
      as (message & Hrun & _ & _ & _ & Hmessage).
    etrans; [exact Hrun|].
    rewrite Hmessage; [vm_compute; reflexivity| |].
    + exact users_declares_others_than_constructor.
    + apply (bool_decide_eq_true_1 ("constructor" ∈ Object_prototype_names)).
      vm_compute. reflexivity.
  - exact (proj1 (proj2 (subCollection_fails_fast_or_returns_new_resolver
                    (remote := Mock.store) Mock.world 1%positive Mock.users
                    "u1" "drafts" None eq_refl)) _ users_declares_drafts
             eq_refl).
  - exact (proj2 (proj2 (subCollection_fails_fast_or_returns_new_resolver
                    (remote := Mock.store) Mock.world 1%positive Mock.users
                    "u1" "comments" None eq_refl)) _ _ users_declares_comments
             eq_refl).
Defined.

Lemma subCollection_ignores_subSchema_witness :
  ∃ r w',
    CR.subCollection (remote := Mock.store) 1%positive "u1" "comments"
      (Some Mock.userSchema) Mock.world = (Return r, w')
    ∧ log w' =
        [call_doc (doc_ (collection_root Mock.firestore "users") "u1");
         call_new Mock.CommentsRef Mock.firestore "comments"
           (Some Mock.commentSchema)
           (Some (doc_ (collection_root Mock.firestore "users") "u1"));
         call_collection
           (collection_sub
              (doc_ (collection_root Mock.firestore "users") "u1")
              "comments")]
    ∧ ∃ o', heap w' !! r = Some (CellCollectionRef o')
            ∧ cr_schema o' = Some Mock.commentSchema.
Proof.
  exact (proj2 (subCollection_ignores_subSchema (remote := Mock.store)
                  Mock.world 1%positive "u1" "comments"
                  (Some Mock.userSchema) None)
           Mock.users _ Mock.CommentsRef eq_refl users_declares_comments eq_refl).
Defined.

End CollectionRefFacts.

(** * Further properties *)

(** ** More on the query builder *)

Module QueryBuilderMore.
Import Js Sdk Schema Runtime RuntimeFacts QueryBuilderFacts.

Lemma invoke_appends_definition b m w :
  QB.invoke b m w = QB.addConstraintDefinition b (QB.definition_of m) w.
Proof. by destruct m. Qed.

Lemma chain_is_append ms : ∀ b w,
  QB.chain b ms w
  = foldM QB.addConstraintDefinition b (QB.definition_of <$> ms) w.
Proof.
  unfold QB.chain. induction ms as [|m ms IH]; intros b w; [done|].
  cbn [foldM fmap list_fmap]. rewrite !bind_unfold, invoke_appends_definition.
  destruct (QB.addConstraintDefinition b (QB.definition_of m) w) as [[b'|e] w'];
    [apply IH|done].
Qed.

(** The translation tells definitions apart. *)
Lemma translation_inj : Inj (=) (=) QB.translation.
Proof.
  intros [| |[]|[]] [| |[]|[]]; cbn; intros [=]; by subst.
Qed.

(** X1.  A chain of method calls logs nothing, and compiling the builder it
    returns gives the native constraints of what the builder held followed
    by one native constraint per call, in the order of the calls: [_where]
    a [where], [orderBy] an [orderBy] (ascending when no direction is
    given), [limit] a [limit], [limitToLast] a [limitToLast], and each
    cursor method the cursor constraint of its own name. *)
Theorem chained_calls_compile_in_call_order (w : World) (b : loc)
  (o : QueryBuilderObject) (defs0 : list QueryConstraintDefinition)
  (ms : list QB.ChainCall) :
  heap w !! b = Some (CellQueryBuilder o) →
  heap w !! qb_constraintDefinitions o = Some (CellArray defs0) →
  ∃ b' w1 q w2,
    QB.chain b ms w = (Return b', w1)
    ∧ log w1 = log w
    ∧ QB.buildQuery b' w1 = (Return q, w2)
    ∧ query_source q = qb_collectionRef o
    ∧ query_constraints q
      = (QB.translation <$> defs0)
          ++ (QB.translation ∘ QB.definition_of <$> ms).
Proof.
  intros Hb Ha. rewrite chain_is_append.
  destruct (appended_run (QB.definition_of <$> ms) w b o defs0 Hb Ha)
    as (b' & o' & w1 & Hrun & Hlog & _ & Hb' & Href & Ha').
  eexists b', w1, _, _. split_and!; [exact Hrun|exact Hlog| | |].
  - by apply (buildQuery_run w1 b' o').
  - done.
  - cbn. by rewrite fmap_app, <- list_fmap_compose.
Qed.

Lemma chained_calls_compile_in_call_order_witness :
  ∃ b' w1 q w2,
    QB.chain 3%positive
      [QB.call__where "age" op_ge (VNumber 18);
       QB.call_orderBy "age" None;
       QB.call_limitToLast 10;
       QB.call_endBefore (VNumber 65) []] Mock.world = (Return b', w1)
    ∧ log w1 = []
    ∧ QB.buildQuery b' w1 = (Return q, w2)
    ∧ query_source q = collection_root Mock.firestore "users"
    ∧ query_constraints q
      = [limit_ 5; where_ "age" op_ge (VNumber 18); orderBy_ "age" asc;
         limitToLast_ 10; endBefore_ (VNumber 65) []].
Proof.
  apply (chained_calls_compile_in_call_order Mock.world 3%positive
           {| qb_firestore := Mock.firestore;
              qb_collectionRef := collection_root Mock.firestore "users";
              qb_constraintDefinitions := 2%positive |}
           [LimitConstraint type_limit 5]); reflexivity.
Defined.

(** X2.  Two builders made from one builder are independent of it and of
    each other: each holds the sequence of the first with its own constraint
    at the end, the first holds what it held, and the three sequences are
    stored at three different locations. *)
Theorem builders_made_from_one_do_not_interfere (w : World) (b : loc)
  (o : QueryBuilderObject) (defs : list QueryConstraintDefinition)
  (m1 m2 : QB.ChainCall) :
  heap w !! b = Some (CellQueryBuilder o) →
  heap w !! qb_constraintDefinitions o = Some (CellArray defs) →
  ∃ b1 w1 b2 w2 o1 o2,
    QB.invoke b m1 w = (Return b1, w1)
    ∧ QB.invoke b m2 w1 = (Return b2, w2)
    ∧ b1 ≠ b ∧ b2 ≠ b ∧ b1 ≠ b2
    ∧ heap w2 !! b = Some (CellQueryBuilder o)
    ∧ heap w2 !! b1 = Some (CellQueryBuilder o1)
    ∧ heap w2 !! b2 = Some (CellQueryBuilder o2)
    ∧ heap w2 !! qb_constraintDefinitions o = Some (CellArray defs)
    ∧ heap w2 !! qb_constraintDefinitions o1
      = Some (CellArray (defs ++ [QB.definition_of m1]))
    ∧ heap w2 !! qb_constraintDefinitions o2
      = Some (CellArray (defs ++ [QB.definition_of m2]))
    ∧ qb_constraintDefinitions o1 ≠ qb_constraintDefinitions o
    ∧ qb_constraintDefinitions o2 ≠ qb_constraintDefinitions o
    ∧ qb_constraintDefinitions o1 ≠ qb_constraintDefinitions o2.
Proof.
  intros Hb Ha. rewrite invoke_appends_definition.
  destruct (addConstraintDefinition_frame w b o defs
              (QB.definition_of m1) Hb Ha)
    as (b1 & o1 & w1 & Hrun1 & Hnew1 & Hnewa1 & _ & Hframe1 & Hb1 & _ & _ & Ha1).
  pose proof (Hframe1 _ _ Hb) as Hb'. pose proof (Hframe1 _ _ Ha) as Ha'.
  destruct (addConstraintDefinition_frame w1 b o defs
              (QB.definition_of m2) Hb' Ha')
    as (b2 & o2 & w2 & Hrun2 & Hnew2 & Hnewa2 & _ & Hframe2 & Hb2 & _ & _ & Ha2).
  exists b1, w1, b2, w2, o1, o2.
  rewrite invoke_appends_definition.
  split_and!; try done; eauto; congruence.
Qed.

Lemma builders_made_from_one_witness :
  ∃ b1 w1 b2 w2 o1 o2,
    QB.invoke 3%positive (QB.call_limit 1) Mock.world = (Return b1, w1)
    ∧ QB.invoke 3%positive (QB.call_limit 1) w1 = (Return b2, w2)
    ∧ b1 ≠ 3%positive ∧ b2 ≠ 3%positive ∧ b1 ≠ b2
    ∧ heap w2 !! 3%positive
      = Some (CellQueryBuilder {|
          qb_firestore := Mock.firestore;
          qb_collectionRef := collection_root Mock.firestore "users";
          qb_constraintDefinitions := 2%positive |})
    ∧ heap w2 !! b1 = Some (CellQueryBuilder o1)
    ∧ heap w2 !! b2 = Some (CellQueryBuilder o2)
    ∧ heap w2 !! 2%positive = Some (CellArray [LimitConstraint type_limit 5])
    ∧ heap w2 !! qb_constraintDefinitions o1
      = Some (CellArray [LimitConstraint type_limit 5;
                         LimitConstraint type_limit 1])
    ∧ heap w2 !! qb_constraintDefinitions o2
      = Some (CellArray [LimitConstraint type_limit 5;
                         LimitConstraint type_limit 1])
    ∧ qb_constraintDefinitions o1 ≠ 2%positive
    ∧ qb_constraintDefinitions o2 ≠ 2%positive
    ∧ qb_constraintDefinitions o1 ≠ qb_constraintDefinitions o2.
Proof.
  apply (builders_made_from_one_do_not_interfere Mock.world 3%positive
           {| qb_firestore := Mock.firestore;
              qb_collectionRef := collection_root Mock.firestore "users";
              qb_constraintDefinitions := 2%positive |}
           [LimitConstraint type_limit 5]); reflexivity.
Defined.

(** X3.  Two builders compile to the same query exactly when they are over
    the same collection and hold the same definitions: the translation loses
    nothing, so for instance a builder holding a [limit] and one holding a
    [limitToLast] of the same count compile to different queries, as do one
    with a [startAt] and one with a [startAfter]. *)
Theorem buildQuery_tells_builders_apart (w1 w2 : World) (b1 b2 : loc)
  (o1 o2 : QueryBuilderObject) (defs1 defs2 : list QueryConstraintDefinition) :
  heap w1 !! b1 = Some (CellQueryBuilder o1) →
  heap w1 !! qb_constraintDefinitions o1 = Some (CellArray defs1) →
  heap w2 !! b2 = Some (CellQueryBuilder o2) →
  heap w2 !! qb_constraintDefinitions o2 = Some (CellArray defs2) →
  ∃ q1 w1' q2 w2',
    QB.buildQuery b1 w1 = (Return q1, w1')
    ∧ QB.buildQuery b2 w2 = (Return q2, w2')
    ∧ (q1 = q2 ↔ qb_collectionRef o1 = qb_collectionRef o2 ∧ defs1 = defs2).
Proof.
  intros Hb1 Ha1 Hb2 Ha2.
  rewrite (buildQuery_run w1 b1 o1 defs1 Hb1 Ha1).
  rewrite (buildQuery_run w2 b2 o2 defs2 Hb2 Ha2).
  eexists _, _, _, _. split_and!; [reflexivity..|]. split.
  - intros [= Href Hdefs]. split; [done|].
    by apply (list_fmap_eq_inj _ translation_inj).
  - by intros [-> ->].
Qed.

Lemma buildQuery_tells_builders_apart_witness :
  ∃ q1 w1' q2 w2',
    QB.buildQuery 3%positive Mock.world = (Return q1, w1')
    ∧ QB.buildQuery 2%positive Mock.last_world = (Return q2, w2')
    ∧ query_source q1 = query_source q2
    ∧ q1 ≠ q2.
Proof.
  destruct (buildQuery_tells_builders_apart Mock.world Mock.last_world
              3%positive 2%positive _ _ _ _ eq_refl eq_refl eq_refl eq_refl)
    as (q1 & w1' & q2 & w2' & Hrun1 & Hrun2 & Hsame).
  exists q1, w1', q2, w2'. split_and!; [exact Hrun1|exact Hrun2| |].
  - injection Hrun1 as <- _. injection Hrun2 as <- _. reflexivity.
  - intros [_ Hdefs]%Hsame. discriminate Hdefs.
Defined.

Section terminal.
Context {remote : Store}.

Lemma getSnapshot_run w b o defs :
  heap w !! b = Some (CellQueryBuilder o) →
  heap w !! qb_constraintDefinitions o = Some (CellArray defs) →
  let q := query_ (qb_collectionRef o) (QB.translation <$> defs) in
  let before := log w ++ (call_constraint ∘ QB.translation <$> defs)
                  ++ [call_query q] in
  QB.getSnapshot b w =
    (getDocs_response before q,
     {| heap := heap w; log := before ++ [call_getDocs q] |}).
Proof.
  intros Hb Ha q before. unfold QB.getSnapshot.
  rewrite (bind_Return _ _ _ _ _ (buildQuery_run w b o defs Hb Ha)).
  reflexivity.
Qed.

(** X4.  [getSnapshot] compiles the query, calls [getDocs] with it once, and
    settles as that call does, whether it resolves or is rejected; it leaves
    every object as it was. *)
Theorem getSnapshot_reads_once_and_relays (w : World) (b : loc)
  (o : QueryBuilderObject) (defs : list QueryConstraintDefinition) :
  heap w !! b = Some (CellQueryBuilder o) →
  heap w !! qb_constraintDefinitions o = Some (CellArray defs) →
  let q := query_ (qb_collectionRef o) (QB.translation <$> defs) in
  let before := log w ++ (call_constraint ∘ QB.translation <$> defs)
                  ++ [call_query q] in
  QB.getSnapshot b w =
    (getDocs_response before q,
     {| heap := heap w; log := before ++ [call_getDocs q] |}).
Proof. apply getSnapshot_run. Qed.

(** X5.  Nothing is cached: a second [getSnapshot] on the same builder calls
    the factories, [query] and [getDocs] again, with the same query, and
    settles as the store answers the second time. *)
Theorem getSnapshot_twice_reads_twice (w : World) (b : loc)
  (o : QueryBuilderObject) (defs : list QueryConstraintDefinition)
  (first : QuerySnapshot) :
  heap w !! b = Some (CellQueryBuilder o) →
  heap w !! qb_constraintDefinitions o = Some (CellArray defs) →
  let q := query_ (qb_collectionRef o) (QB.translation <$> defs) in
  let compile := (call_constraint ∘ QB.translation <$> defs)
                   ++ [call_query q] in
  getDocs_response (log w ++ compile) q = Return first →
  (_ ← QB.getSnapshot b; QB.getSnapshot b) w =
    (getDocs_response
       (log w ++ compile ++ [call_getDocs q] ++ compile) q,
     {| heap := heap w;
        log := log w ++ compile ++ [call_getDocs q]
                 ++ compile ++ [call_getDocs q] |}).
Proof.
  intros Hb Ha q compile Hfirst.
  pose proof (getSnapshot_run w b o defs Hb Ha) as Hrun1.
  cbn zeta in Hrun1. fold q compile in Hrun1.
  rewrite bind_unfold, Hrun1, Hfirst.
  pose proof (getSnapshot_run
                {| heap := heap w;
                   log := (log w ++ compile) ++ [call_getDocs q] |}
                b o defs Hb Ha) as Hrun2.
  cbn zeta in Hrun2. cbn [heap log] in Hrun2. fold q compile in Hrun2.
  rewrite Hrun2. by rewrite <- !app_assoc.
Qed.

(** X6.  [get] resolves with the data of the documents of the snapshot, one
    per document and in the order of the snapshot, so with the empty list
    when nothing matched; when [getDocs] is rejected, [get] is rejected with
    the same error. *)
Theorem get_projects_documents_in_order (w : World) (b : loc)
  (o : QueryBuilderObject) (defs : list QueryConstraintDefinition) :
  heap w !! b = Some (CellQueryBuilder o) →
  heap w !! qb_constraintDefinitions o = Some (CellArray defs) →
  let q := query_ (qb_collectionRef o) (QB.translation <$> defs) in
  let before := log w ++ (call_constraint ∘ QB.translation <$> defs)
                  ++ [call_query q] in
  let w' := {| heap := heap w; log := before ++ [call_getDocs q] |} in
  (∀ snapshot,
     getDocs_response before q = Return snapshot →
     ∃ result,
       QB.get b w = (Return result, w')
       ∧ length result = length (docs snapshot)
       ∧ (∀ i d, docs snapshot !! i = Some d → result !! i = Some (data_of d))
       ∧ (docs snapshot = [] → result = []))
  ∧ (∀ e,
       getDocs_response before q = Throw e →
       QB.get b w = (Throw e, w')).
Proof.
  intros Hb Ha q before w'. unfold QB.get.
  pose proof (getSnapshot_run w b o defs Hb Ha) as Hrun.
  cbn zeta in Hrun. fold q before w' in Hrun.
  rewrite bind_unfold, Hrun. split.
  - intros snapshot ->. eexists. split; [reflexivity|]. split_and!.
    + apply length_fmap.
    + intros i d Hd. by rewrite list_lookup_fmap, Hd.
    + by intros ->.
  - by intros e ->.
Qed.

End terminal.

Lemma getSnapshot_reads_once_and_relays_witness :
  let q := query_ (collection_root Mock.firestore "users") [limit_ 5] in
  QB.getSnapshot (remote := Mock.offline) 3%positive Mock.world =
    (Throw (StoreError "unavailable"),
     {| heap := heap Mock.world;
        log := [call_constraint (limit_ 5); call_query q; call_getDocs q] |}).
Proof.
  exact (getSnapshot_reads_once_and_relays (remote := Mock.offline)
           Mock.world 3%positive
           {| qb_firestore := Mock.firestore;
              qb_collectionRef := collection_root Mock.firestore "users";
              qb_constraintDefinitions := 2%positive |}
           [LimitConstraint type_limit 5] eq_refl eq_refl).
Defined.

Lemma getSnapshot_twice_reads_twice_witness :
  let q := query_ (collection_root Mock.firestore "users") [limit_ 5] in
  (_ ← QB.getSnapshot (remote := Mock.store) 3%positive;
   QB.getSnapshot (remote := Mock.store) 3%positive) Mock.world =
    (Return {| docs := [] |},
     {| heap := heap Mock.world;
        log := [call_constraint (limit_ 5); call_query q; call_getDocs q;
                call_constraint (limit_ 5); call_query q; call_getDocs q] |}).
Proof.
  exact (getSnapshot_twice_reads_twice (remote := Mock.store)
           Mock.world 3%positive
           {| qb_firestore := Mock.firestore;
              qb_collectionRef := collection_root Mock.firestore "users";
              qb_constraintDefinitions := 2%positive |}
           [LimitConstraint type_limit 5] {| docs := [] |}
           eq_refl eq_refl eq_refl).
Defined.

Lemma get_projects_documents_in_order_witness :
  (∃ result w',
     QB.get (remote := Mock.two_matches) 3%positive Mock.world
       = (Return result, w')
     ∧ length result = 2
     ∧ result !! 1 = Some {[ "name" := VString "b" ]})
  ∧ (∃ w',
       QB.get (remote := Mock.offline) 3%positive Mock.world
         = (Throw (StoreError "unavailable"), w')).
Proof.
  split.
  - destruct (proj1 (get_projects_documents_in_order
                       (remote := Mock.two_matches) Mock.world 3%positive
                       {| qb_firestore := Mock.firestore;
                          qb_collectionRef :=
                            collection_root Mock.firestore "users";
                          qb_constraintDefinitions := 2%positive |}
                       [LimitConstraint type_limit 5] eq_refl eq_refl)
                _ eq_refl)
      as (result & Hrun & Hlen & Hat & _).
    eexists result, _. split_and!; [exact Hrun|exact Hlen|].
    exact (Hat 1 {| data_of := {[ "name" := VString "b" ]} |} eq_refl).
  - eexists.
    exact (proj2 (get_projects_documents_in_order
                    (remote := Mock.offline) Mock.world 3%positive
                    {| qb_firestore := Mock.firestore;
                       qb_collectionRef :=
                         collection_root Mock.firestore "users";
                       qb_constraintDefinitions := 2%positive |}
                    [LimitConstraint type_limit 5] eq_refl eq_refl)
             _ eq_refl).
Defined.

End QueryBuilderMore.

(** ** More on the update builder *)

Module UpdateBuilderMore.
Import Js Sdk Schema Runtime JsFacts RuntimeFacts UpdateBuilderFacts.

Lemma invoke_is_set b m w :
  UB.invoke b m w =
    UB._set b (UB.target m) (UB.installs m)
      {| heap := heap w; log := log w ++ UB.factory_calls m |}.
Proof.
  destruct m; cbn [UB.invoke UB.target UB.installs UB.factory_calls];
    try reflexivity.
  rewrite app_nil_r. by destruct w.
Qed.

Lemma accumulate_snoc data ms m :
  UB.accumulate data (ms ++ [m])
  = <[UB.target m := UB.installs m]> (UB.accumulate data ms).
Proof. unfold UB.accumulate. by rewrite foldl_app. Qed.

Lemma accumulate_cons data ms m :
  UB.accumulate data (m :: ms)
  = UB.accumulate (<[UB.target m := UB.installs m]> data) ms.
Proof. reflexivity. Qed.

(** A chain of calls, run on a builder. *)
Lemma chain_run ms : ∀ w b o data,
  heap w !! b = Some (CellUpdateBuilder o) →
  heap w !! ub_updateData o = Some (CellRecord data) →
  ∃ b' o' w',
    UB.chain b ms w = (Return b', w')
    ∧ log w' = log w ++ mjoin (UB.factory_calls <$> ms)
    ∧ (∀ l c, heap w !! l = Some c → heap w' !! l = Some c)
    ∧ heap w' !! b' = Some (CellUpdateBuilder o')
    ∧ ub_docRef o' = ub_docRef o
    ∧ heap w' !! ub_updateData o'
      = Some (CellRecord (UB.accumulate data ms)).
Proof.
  unfold UB.chain.
  induction ms as [|m ms IH]; intros w b o data Hb Hr.
  - exists b, o, w. cbn. rewrite app_nil_r. by split_and!.
  - destruct (_set_frame {| heap := heap w;
                            log := log w ++ UB.factory_calls m |}
                b o data (UB.target m) (UB.installs m) Hb Hr)
      as (b1 & o1 & w1 & Hrun & _ & _ & Hlog & Hframe & Hb1 & Hdoc & Hr1).
    destruct (IH w1 b1 o1 _ Hb1 Hr1)
      as (b' & o' & w' & Hrun' & Hlog' & Hframe' & Hb' & Hdoc' & Hr').
    exists b', o', w'. split_and!.
    + cbn [foldM]. rewrite bind_unfold, invoke_is_set, Hrun. exact Hrun'.
    + rewrite Hlog', Hlog. cbn. by rewrite <- app_assoc.
    + intros l c Hl. apply Hframe', Hframe. exact Hl.
    + done.
    + congruence.
    + done.
Qed.

(** Reading the accumulated mapping at a path: the value of the last call
    that targets the path, or what was there when no call targets it. *)
Lemma accumulate_lookup ms : ∀ data p,
  UB.accumulate data ms !! p
  = match last (filter (λ m, UB.target m = p) ms) with
    | Some m => Some (UB.installs m)
    | None => data !! p
    end.
Proof.
  induction ms as [|m ms IH]; intros data p; [done|].
  rewrite accumulate_cons, IH, filter_cons.
  destruct (decide (UB.target m = p)) as [<-|Hne].
  - rewrite last_cons.
    destruct (last (filter _ ms)); [done|apply lookup_insert_eq].
  - destruct (last (filter _ ms)); [done|by apply lookup_insert_ne].
Qed.

Lemma accumulate_non_empty data ms : ms ≠ [] → UB.accumulate data ms ≠ ∅.
Proof.
  destruct ms as [|m ms _] using rev_ind; [done|].
  intros _. rewrite accumulate_snoc. apply insert_non_empty.
Qed.

Lemma perm_at_most_one {A} (l1 l2 : list A) :
  l1 ≡ₚ l2 → length l1 ≤ 1 → l1 = l2.
Proof.
  intros Hperm Hlen.
  destruct l1 as [|x [|y l1]]; cbn in Hlen; [| |lia].
  - by apply Permutation_nil in Hperm.
  - by apply Permutation_singleton_l in Hperm.
Qed.

Lemma filter_target_at_most_one ms p :
  NoDup (UB.target <$> ms) →
  length (filter (λ m, UB.target m = p) ms) ≤ 1.
Proof.
  induction ms as [|m ms IH]; [cbn; lia|].
  rewrite fmap_cons, NoDup_cons. intros [Hnin Hnd].
  rewrite filter_cons. destruct (decide (UB.target m = p)) as [<-|]; [|auto].
  rewrite (ListFacts.filter_none _ ms); [cbn; lia|].
  intros m' Hm' Heq. apply Hnin. rewrite <- Heq.
  by apply list_elem_of_fmap_2.
Qed.

Lemma accumulate_permutation data ms1 ms2 :
  NoDup (UB.target <$> ms1) → ms1 ≡ₚ ms2 →
  UB.accumulate data ms1 = UB.accumulate data ms2.
Proof.
  intros Hnd Hperm. apply map_eq. intros p. rewrite !accumulate_lookup.
  rewrite (perm_at_most_one (filter (λ m, UB.target m = p) ms1)
             (filter (λ m, UB.target m = p) ms2)); [done| |].
  - by rewrite Hperm.
  - by apply filter_target_at_most_one.
Qed.

(** A new builder holds no operation. *)
Lemma new_updateBuilder_run docRef w :
  ∃ b o w',
    UB.new docRef w = (Return b, w')
    ∧ log w' = log w
    ∧ heap w' !! b = Some (CellUpdateBuilder o)
    ∧ ub_docRef o = docRef
    ∧ heap w' !! ub_updateData o = Some (CellRecord ∅).
Proof.
  set (r := fresh (dom (heap w))).
  set (h1 := <[r := CellRecord ∅]> (heap w)).
  set (b := fresh (dom h1)).
  set (o := {| ub_docRef := docRef; ub_updateData := r |}).
  exists b, o, {| heap := <[b := CellUpdateBuilder o]> h1; log := log w |}.
  assert (Hne : b ≠ r).
  { intros E. pose proof (fresh_heap_None h1) as Hf. fold b in Hf.
    subst h1. by rewrite E, lookup_insert_eq in Hf. }
  cbn [heap log]. split_and!; [reflexivity|done| |done|].
  - apply lookup_insert_eq.
  - subst h1. cbn. rewrite lookup_insert_ne; [|done]. apply lookup_insert_eq.
Qed.

(** X8.  After any chain of calls the builder returned holds, at every path,
    the value installed by the last call of the chain that targets the
    path, and what the first builder held there when no call targets it. *)
Theorem chain_keeps_the_last_value_per_path (w : World) (b : loc)
  (o : UpdateBuilderObject) (data : gmap string value)
  (ms : list UB.ChainCall) :
  heap w !! b = Some (CellUpdateBuilder o) →
  heap w !! ub_updateData o = Some (CellRecord data) →
  ∃ b' w' data',
    UB.chain b ms w = (Return b', w')
    ∧ UB.updateData_of w' b' = Some data'
    ∧ ∀ p, data' !! p
           = match last (filter (λ m, UB.target m = p) ms) with
             | Some m => Some (UB.installs m)
             | None => data !! p
             end.
Proof.
  intros Hb Hr.
  destruct (chain_run ms w b o data Hb Hr)
    as (b' & o' & w' & Hrun & _ & _ & Hb' & _ & Hr').
  exists b', w', (UB.accumulate data ms). split_and!.
  - done.
  - apply updateData_of_Some. eauto.
  - intros p. apply accumulate_lookup.
Qed.

Lemma chain_keeps_the_last_value_witness :
  ∃ b' w' data',
    UB.chain 5%positive
      [UB.call__set "y" (VString "first");
       UB.call__increment "x" 2;
       UB.call__set "y" (VString "second")] Mock.world = (Return b', w')
    ∧ UB.updateData_of w' b' = Some data'
    ∧ data' !! "x" = Some (VFieldValue (increment_ 2))
    ∧ data' !! "y" = Some (VString "second")
    ∧ data' !! "z" = None.
Proof.
  destruct (chain_keeps_the_last_value_per_path Mock.world 5%positive
              {| ub_docRef :=
                   doc_ (collection_root Mock.firestore "users") "doc-1";
                 ub_updateData := 4%positive |}
              {[ "x" := VNumber 1 ]}
              [UB.call__set "y" (VString "first");
               UB.call__increment "x" 2;
               UB.call__set "y" (VString "second")] eq_refl eq_refl)
    as (b' & w' & data' & Hrun & Hdata & Hat).
  exists b', w', data'. split_and!; [done..| | |]; rewrite Hat;
    vm_compute; reflexivity.
Defined.

(** X9.  Calls that target different paths may be chained in any order: two
    chains that are permutations of each other, no two calls of which target
    the same path, leave the same mapping. *)
Theorem chains_on_different_paths_commute (w : World) (b : loc)
  (o : UpdateBuilderObject) (data : gmap string value)
  (ms1 ms2 : list UB.ChainCall) :
  heap w !! b = Some (CellUpdateBuilder o) →
  heap w !! ub_updateData o = Some (CellRecord data) →
  NoDup (UB.target <$> ms1) →
  ms1 ≡ₚ ms2 →
  ∃ b1 w1 b2 w2 data',
    UB.chain b ms1 w = (Return b1, w1)
    ∧ UB.chain b ms2 w = (Return b2, w2)
    ∧ UB.updateData_of w1 b1 = Some data'
    ∧ UB.updateData_of w2 b2 = Some data'.
Proof.
  intros Hb Hr Hnd Hperm.
  destruct (chain_run ms1 w b o data Hb Hr)
    as (b1 & o1 & w1 & Hrun1 & _ & _ & Hb1 & _ & Hr1).
  destruct (chain_run ms2 w b o data Hb Hr)
    as (b2 & o2 & w2 & Hrun2 & _ & _ & Hb2 & _ & Hr2).
  exists b1, w1, b2, w2, (UB.accumulate data ms1). split_and!; [done..| |].
  - apply updateData_of_Some. eauto.
  - apply updateData_of_Some. exists o2. split; [done|].
    by rewrite (accumulate_permutation data ms1 ms2).
Qed.

Lemma chains_on_different_paths_commute_witness :
  ∃ b1 w1 b2 w2 data',
    UB.chain 5%positive
      [UB.call__deleteField "a"; UB.call__set "b" VNull] Mock.world
      = (Return b1, w1)
    ∧ UB.chain 5%positive
        [UB.call__set "b" VNull; UB.call__deleteField "a"] Mock.world
      = (Return b2, w2)
    ∧ UB.updateData_of w1 b1 = Some data'
    ∧ UB.updateData_of w2 b2 = Some data'.
Proof.
  apply (chains_on_different_paths_commute Mock.world 5%positive
           {| ub_docRef :=
                doc_ (collection_root Mock.firestore "users") "doc-1";
              ub_updateData := 4%positive |}
           {[ "x" := VNumber 1 ]}).
  - reflexivity.
  - reflexivity.
  - apply NoDup_cons. split; [|apply NoDup_singleton].
    by intros ?%list_elem_of_singleton.
  - apply Permutation_swap.
Defined.

Section terminal.
Context {remote : Store}.

Lemma commit_run w b o data :
  heap w !! b = Some (CellUpdateBuilder o) →
  heap w !! ub_updateData o = Some (CellRecord data) →
  UB.commit b w =
    if bool_decide (data = ∅) then
      (Return (),
       {| heap := heap w;
          log := log w ++ [console_warn
                   "Update commit called with no changes specified."] |})
    else
      (updateDoc_response (log w) (ub_docRef o) data,
       {| heap := heap w;
          log := log w ++ [call_updateDoc (ub_docRef o) data] |}).
Proof.
  intros Hb Hr. unfold UB.commit. run_load Hb. run_load Hr.
  rewrite (bool_decide_ext _ (data = ∅)) by apply Object_keys_empty.
  by destruct (bool_decide (data = ∅)).
Qed.

(** X7.  The sentinel of a chain call is made when the call is chained, not
    when the chain is committed: a chain calls the factories of its calls in
    the order of the calls ([_set] calls none), and [commit] on the builder
    it returns makes a single further call, which is not a factory call. *)
Theorem sentinels_are_made_when_chained (w : World) (b : loc)
  (o : UpdateBuilderObject) (data : gmap string value)
  (ms : list UB.ChainCall) :
  heap w !! b = Some (CellUpdateBuilder o) →
  heap w !! ub_updateData o = Some (CellRecord data) →
  ∃ b' w1 r w2 e,
    UB.chain b ms w = (Return b', w1)
    ∧ log w1 = log w ++ mjoin (UB.factory_calls <$> ms)
    ∧ UB.commit b' w1 = (r, w2)
    ∧ log w2 = log w1 ++ [e]
    ∧ ∀ f, e ≠ call_fieldValue f.
Proof.
  intros Hb Hr.
  destruct (chain_run ms w b o data Hb Hr)
    as (b' & o' & w1 & Hrun & Hlog & _ & Hb' & _ & Hr').
  pose proof (commit_run w1 b' o' _ Hb' Hr') as Hcommit.
  destruct (bool_decide (UB.accumulate data ms = ∅));
    eexists b', w1, _, _, _;
    (split_and!; [exact Hrun|exact Hlog|exact Hcommit|reflexivity|done]).
Qed.

(** X10.  [commit] does not clear the builder: it leaves every object as it
    was, however it settles, and when a first [commit] of a non-empty
    mapping resolves, a second one sends the same mapping to the same
    document again. *)
Theorem commit_keeps_the_mapping (w : World) (b : loc)
  (o : UpdateBuilderObject) (data : gmap string value) :
  heap w !! b = Some (CellUpdateBuilder o) →
  heap w !! ub_updateData o = Some (CellRecord data) →
  heap (UB.commit b w).2 = heap w
  ∧ (data ≠ ∅ →
     updateDoc_response (log w) (ub_docRef o) data = Return () →
     let call := call_updateDoc (ub_docRef o) data in
     (_ ← UB.commit b; UB.commit b) w =
       (updateDoc_response (log w ++ [call]) (ub_docRef o) data,
        {| heap := heap w; log := log w ++ [call; call] |})).
Proof.
  intros Hb Hr. split.
  - rewrite (commit_run w b o data Hb Hr).
    by destruct (bool_decide (data = ∅)).
  - intros Hne Hfirst call. subst call.
    rewrite bind_unfold, (commit_run w b o data Hb Hr).
    rewrite bool_decide_eq_false_2 by done. rewrite Hfirst.
    rewrite (commit_run
               {| heap := heap w;
                  log := log w ++ [call_updateDoc (ub_docRef o) data] |}
               b o data Hb Hr).
    rewrite bool_decide_eq_false_2 by done. cbn [heap log].
    by rewrite <- app_assoc.
Qed.

(** X11.  From construction to commit: a new builder committed at once makes
    no call to the store and resolves; a new builder committed after a
    non-empty chain makes one [updateDoc] call, on the document reference
    the builder was constructed with and with the mapping the chain
    accumulates from the empty one, and settles as that call does. *)
Theorem new_chain_commit (docRef : DocumentReference)
  (ms : list UB.ChainCall) (w : World) :
  (∃ w',
     (b ← UB.new docRef; UB.commit b) w = (Return (), w')
     ∧ log w' = log w ++ [console_warn
                   "Update commit called with no changes specified."])
  ∧ (ms ≠ [] →
     let data := UB.accumulate ∅ ms in
     let before := log w ++ mjoin (UB.factory_calls <$> ms) in
     ∃ w',
       (b ← UB.new docRef; b' ← UB.chain b ms; UB.commit b') w
       = (updateDoc_response before docRef data, w')
       ∧ log w' = before ++ [call_updateDoc docRef data]).
Proof.
  destruct (new_updateBuilder_run docRef w) as (b & o & w0 & Hnew & Hlog0 & Hb & Hdoc & Hr).
  split.
  - eexists. rewrite (bind_Return _ _ _ _ _ Hnew).
    rewrite (commit_run w0 b o ∅ Hb Hr), bool_decide_eq_true_2 by done.
    split; [reflexivity|]. cbn. by rewrite Hlog0.
  - intros Hne data before.
    destruct (chain_run ms w0 b o ∅ Hb Hr)
      as (b' & o' & w1 & Hrun & Hlog1 & _ & Hb' & Hdoc' & Hr').
    eexists.
    rewrite (bind_Return _ _ _ _ _ Hnew), (bind_Return _ _ _ _ _ Hrun).
    rewrite (commit_run w1 b' o' _ Hb' Hr'), bool_decide_eq_false_2
      by (by apply accumulate_non_empty).
    subst data before. rewrite Hdoc', Hdoc, Hlog1, Hlog0. split; reflexivity.
Qed.

End terminal.

Lemma sentinels_are_made_when_chained_witness :
  ∃ b' w1 r w2 e,
    UB.chain 7%positive
      [UB.call__serverTimestamp "seen"; UB.call__set "n" (VNumber 0);
       UB.call__arrayUnion "tags" [VString "a"]] Mock.world = (Return b', w1)
    ∧ log w1 = [call_fieldValue serverTimestamp_;
                call_fieldValue (arrayUnion_ [VString "a"])]
    ∧ UB.commit (remote := Mock.store) b' w1 = (r, w2)
    ∧ log w2 = log w1 ++ [e]
    ∧ ∀ f, e ≠ call_fieldValue f.
Proof.
  apply (sentinels_are_made_when_chained (remote := Mock.store)
           Mock.world 7%positive
           {| ub_docRef :=
                doc_ (collection_root Mock.firestore "users") "doc-1";
              ub_updateData := 6%positive |} ∅); reflexivity.
Defined.

Lemma commit_keeps_the_mapping_witness :
  let call := call_updateDoc
                (doc_ (collection_root Mock.firestore "users") "doc-1")
                {[ "x" := VNumber 1 ]} in
  heap (UB.commit (remote := Mock.offline) 5%positive Mock.world).2
  = heap Mock.world
  ∧ (_ ← UB.commit (remote := Mock.store) 5%positive;
     UB.commit (remote := Mock.store) 5%positive) Mock.world =
      (Return (), {| heap := heap Mock.world; log := [call; call] |}).
Proof.
  split.
  - exact (proj1 (commit_keeps_the_mapping (remote := Mock.offline)
                    Mock.world 5%positive
                    {| ub_docRef :=
                         doc_ (collection_root Mock.firestore "users") "doc-1";
                       ub_updateData := 4%positive |}
                    {[ "x" := VNumber 1 ]} eq_refl eq_refl)).
  - refine (proj2 (commit_keeps_the_mapping (remote := Mock.store)
                     Mock.world 5%positive
                     {| ub_docRef :=
                          doc_ (collection_root Mock.firestore "users") "doc-1";
                        ub_updateData := 4%positive |}
                     {[ "x" := VNumber 1 ]} eq_refl eq_refl) _ eq_refl).
    apply insert_non_empty.
Defined.

Lemma new_chain_commit_witness :
  let d := doc_ (collection_root Mock.firestore "users") "u1" in
  ∃ w',
    (b ← UB.new d;
     b' ← UB.chain b [UB.call__increment "visits" 1;
                      UB.call__set "name" (VString "a")];
     UB.commit (remote := Mock.offline) b') Mock.world
    = (Throw (StoreError "unavailable"), w')
    ∧ log w' = [call_fieldValue (increment_ 1);
                call_updateDoc d {[ "visits" := VFieldValue (increment_ 1);
                                    "name" := VString "a" ]}].
Proof.
  intros d.
  destruct (proj2 (new_chain_commit (remote := Mock.offline) d
                     [UB.call__increment "visits" 1;
                      UB.call__set "name" (VString "a")] Mock.world))
    as (w' & Hrun & Hlog); [discriminate|].
  exists w'. split.
  - etrans; [exact Hrun|]. reflexivity.
  - rewrite Hlog. vm_compute. reflexivity.
Defined.

End UpdateBuilderMore.

(** ** More on the collection resolver *)

Module CollectionRefMore.
Import Js Sdk Schema Runtime JsFacts ListFacts RuntimeFacts CollectionRefFacts.

(** The constructor, run. *)
Lemma new_collectionRef_run cls firestore collectionId schema parentRef w :
  let ref := match parentRef with
             | Some parentRef => collection_sub parentRef collectionId
             | None => collection_root firestore collectionId
             end in
  let c := fresh (dom (heap w)) in
  CR.new cls firestore collectionId schema parentRef w =
    (Return c,
     {| heap := <[c := CellCollectionRef {|
                   cr_class := cls;
                   cr_ref := ref;
                   cr_firestore := firestore;
                   cr_collectionId := collectionId;
                   cr_schema := schema |}]> (heap w);
        log := log w ++ [call_collection ref] |}).
Proof. by destruct parentRef. Qed.

(** X13.  When the payload omits no declared field that has a directive, and
    so whenever the resolver has no schema, [applyDefaults] returns the
    payload as it is and calls nothing. *)
Theorem applyDefaults_leaves_complete_payloads_alone (w : World)
  (this : loc) (o : CollectionRefObject) (data : gmap string value) :
  heap w !! this = Some (CellCollectionRef o) →
  (∀ schema k fieldDef,
     cr_schema o = Some schema →
     fields schema !! k = Some fieldDef →
     defaultValue fieldDef ≠ VUndefined →
     ¬ CR.omits data k) →
  CR.applyDefaults this data w = (Return data, w).
Proof.
  intros Hthis Hcomplete. rewrite (applyDefaults_run w this o data Hthis).
  assert (CR.withDefaults (cr_schema o) data = data) as ->.
  { apply map_eq. intros k.
    destruct (withDefaults_cases (cr_schema o) data k)
      as [|(s & fieldDef & Hs & Hk & Hd & Ho & _)]; [done|].
    destruct (Hcomplete s k fieldDef Hs Hk Hd (reads_undefined_omits _ _ Ho)). }
  rewrite timestamps_wanted_none.
  - cbn. rewrite app_nil_r. by destruct w.
  - intros s k Hs Hw. pose proof (wants_timestamp_omits _ _ _ Hw) as Ho.
    unfold CR.wants_timestamp in Hw.
    destruct (fields s !! k) as [fieldDef|] eqn:Hk; [|done].
    apply andb_True in Hw as [Hts%Is_true_true%strict_eq_string_true _].
    apply (Hcomplete s k fieldDef Hs Hk); [by rewrite Hts|done].
Qed.

(** X14.  The fields of the payload [applyDefaults] returns are the fields of
    the payload it was given and the declared fields that have a directive
    and whose name is not one of [Object.prototype]: no field is dropped, no
    field without a directive is added, and no field named like a member of
    [Object.prototype] is added. *)
Theorem applyDefaults_fields (w : World) (this : loc)
  (o : CollectionRefObject) (data : gmap string value) :
  heap w !! this = Some (CellCollectionRef o) →
  ∃ out w',
    CR.applyDefaults this data w = (Return out, w')
    ∧ ∀ k, is_Some (out !! k)
           ↔ is_Some (data !! k)
             ∨ match cr_schema o with
               | Some schema =>
                   ∃ fieldDef, fields schema !! k = Some fieldDef
                               ∧ defaultValue fieldDef ≠ VUndefined
                               ∧ k ∉ Object_prototype_names
               | None => False
               end.
Proof.
  intros Hthis. eexists _, _. split; [by apply applyDefaults_run|].
  intros k. destruct (cr_schema o) as [schema|]; [|cbn; tauto].
  rewrite withDefaults_lookup.
  destruct (fields schema !! k) as [fieldDef|] eqn:Hk.
  - destruct (is_undefined (defaultValue fieldDef)) eqn:Hd.
    + apply is_undefined_true in Hd. rewrite andb_false_r.
      split; [by left|]. intros [|(fieldDef' & [= <-] & Hd' & _)]; done.
    + apply is_undefined_false in Hd. rewrite andb_true_r.
      destruct (is_undefined (Js.read data k)) eqn:Hu.
      * split; [|by eauto]. intros _.
        apply is_undefined_true, read_undefined in Hu as [Hu|[_ Hp]].
        -- left. eauto.
        -- right. by exists fieldDef.
      * split; [by left|]. intros [|(_ & _ & _ & Hp)]; [done|].
        rewrite (read_ordinary _ _ Hp) in Hu.
        unfold Js.get in Hu. by destruct (data !! k).
  - split; [by left|]. by intros [|(? & [=] & _)].
Qed.

(** X15.  A field the payload holds with the value [undefined] counts as
    omitted: it gets what its directive injects when it is declared with
    one, and stays a field holding [undefined] when it is not. *)
Theorem applyDefaults_takes_undefined_for_omitted (w : World) (this : loc)
  (o : CollectionRefObject) (data : gmap string value) (k : string) :
  heap w !! this = Some (CellCollectionRef o) →
  data !! k = Some VUndefined →
  ∃ out w',
    CR.applyDefaults this data w = (Return out, w')
    ∧ (∀ schema fieldDef,
         cr_schema o = Some schema →
         fields schema !! k = Some fieldDef →
         defaultValue fieldDef ≠ VUndefined →
         out !! k = Some (CR.injected fieldDef)
         ∧ CR.injected fieldDef ≠ VUndefined)
    ∧ ((∀ schema fieldDef,
          cr_schema o = Some schema →
          fields schema !! k = Some fieldDef →
          defaultValue fieldDef = VUndefined) →
       out !! k = Some VUndefined).
Proof.
  intros Hthis Hk. eexists _, _. split; [by apply applyDefaults_run|].
  assert (Ho : CR.reads_undefined data k)
    by (unfold CR.reads_undefined; by rewrite (read_own _ _ _ Hk)).
  split.
  - intros schema fieldDef -> Hf Hd. split.
    + by apply withDefaults_omitted.
    + by apply injected_defined.
  - intros Hnone.
    destruct (withDefaults_cases (cr_schema o) data k)
      as [->|(s & fieldDef & Hs & Hf & Hd & _)]; [done|].
    destruct Hd. by apply (Hnone s).
Qed.

(** X16.  A directive other than ['serverTimestamp'] is a literal: a field
    declared with it that reads as [undefined] in the payload gets the
    directive itself, also when the directive is [null], [false], [0] or the
    empty string.  A field reads as [undefined] when the payload holds it
    with the value [undefined], and when the payload has no field of the
    name and the name is not one of [Object.prototype] ([read_undefined]). *)
Theorem applyDefaults_injects_literals (w : World) (this : loc)
  (o : CollectionRefObject) (data : gmap string value) (k : string)
  (schema : CollectionSchema) (fieldDef : FieldSchema) :
  heap w !! this = Some (CellCollectionRef o) →
  cr_schema o = Some schema →
  fields schema !! k = Some fieldDef →
  defaultValue fieldDef ≠ VUndefined →
  defaultValue fieldDef ≠ VString "serverTimestamp" →
  CR.reads_undefined data k →
  ∃ out w',
    CR.applyDefaults this data w = (Return out, w')
    ∧ out !! k = Some (defaultValue fieldDef).
Proof.
  intros Hthis Hs Hk Hd Hlit Ho.
  eexists _, _. split; [by apply applyDefaults_run|].
  rewrite Hs, (withDefaults_omitted schema data k fieldDef Hk Hd Ho).
  unfold CR.injected. apply strict_eq_string_false in Hlit. by rewrite Hlit.
Qed.

(** X21.  Let a field read as [undefined] in the payload.  If the schema
    declares the field with the directive ['serverTimestamp'], then
    [serverTimestamp()] is called and the payload [applyDefaults] returns
    holds its sentinel there.  And whatever the schema declares, no field
    holds the string ['serverTimestamp'] in the result unless the payload
    held it there: no directive injects that string. *)
Theorem serverTimestamp_directive_injects_the_sentinel (w : World)
  (this : loc) (o : CollectionRefObject) (data : gmap string value)
  (k : string) :
  heap w !! this = Some (CellCollectionRef o) →
  CR.reads_undefined data k →
  ∃ out w',
    CR.applyDefaults this data w = (Return out, w')
    ∧ (∀ schema fieldDef,
         cr_schema o = Some schema →
         fields schema !! k = Some fieldDef →
         defaultValue fieldDef = VString "serverTimestamp" →
         out !! k = Some (VFieldValue serverTimestamp_)
         ∧ ∃ n, log w' = log w ++ replicate (S n)
                           (call_fieldValue serverTimestamp_))
    ∧ (∀ k', out !! k' = Some (VString "serverTimestamp") →
             data !! k' = Some (VString "serverTimestamp")).
Proof.
  intros Hthis Ho. eexists _, _. split; [by apply applyDefaults_run|]. split.
  - intros schema fieldDef -> Hk Hd. cbn [log]. split.
    + rewrite (withDefaults_omitted schema data k fieldDef Hk);
        [|by rewrite Hd|done].
      unfold CR.injected. by rewrite Hd.
    + destruct (timestamps_wanted_pos schema data k) as [n ->]; [|eauto].
      unfold CR.wants_timestamp. rewrite Hk, Hd.
      apply is_undefined_true in Ho. by rewrite Ho.
  - intros k'.
    destruct (withDefaults_cases (cr_schema o) data k')
      as [->|(s & fieldDef & _ & _ & _ & _ & ->)]; [done|].
    intros [= Hi]. by apply injected_not_the_directive in Hi.
Qed.

(** X22.  A field whose name is one of [Object.prototype] ([constructor],
    [toString], [valueOf], ...) is given no default when the payload has no
    field of that name, whatever the schema declares for it: reading the name
    on the copy of the payload yields the inherited member, not [undefined].
    [serverTimestamp()] is not called for such a field. *)
Theorem applyDefaults_skips_inherited_names (w : World) (this : loc)
  (o : CollectionRefObject) (data : gmap string value) (k : string) :
  heap w !! this = Some (CellCollectionRef o) →
  k ∈ Object_prototype_names →
  data !! k = None →
  ∃ out w',
    CR.applyDefaults this data w = (Return out, w')
    ∧ out !! k = None
    ∧ (∀ schema, cr_schema o = Some schema →
                 ¬ CR.wants_timestamp (fields schema) data k).
Proof.
  intros Hthis Hp Hk. eexists _, _. split; [by apply applyDefaults_run|].
  split; [by apply withDefaults_inherited|].
  intros schema _ Hw%wants_timestamp_reads_undefined.
  unfold CR.reads_undefined in Hw. by rewrite (read_inherited _ _ Hk Hp) in Hw.
Qed.

Section terminal.
Context {remote : Store}.

(** X12.  [delete] makes one [deleteDoc] call on the reference of the
    document, without reading the document first, and settles as that call
    does: whether deleting a document that is not there is an error is for
    the store alone to say. *)
Theorem delete_deletes_without_reading (w : World) (this : loc)
  (o : CollectionRefObject) (id : string) :
  heap w !! this = Some (CellCollectionRef o) →
  let docRef := doc_ (cr_ref o) id in
  CR.delete this id w =
    (deleteDoc_response (log w ++ [call_doc docRef]) docRef,
     {| heap := heap w;
        log := log w ++ [call_doc docRef; call_deleteDoc docRef] |}).
Proof.
  intros Hthis docRef. unfold CR.delete.
  rewrite (bind_Return _ _ _ _ _ (doc_run _ _ _ id Hthis)).
  unfold sdk_deleteDoc, round_trip. cbn [heap log]. by rewrite <- app_assoc.
Qed.

(** X17.  When [getDoc] is rejected, [get] is rejected with the same error,
    after that one call: the error is neither turned into [undefined] nor
    tried again. *)
Theorem get_relays_a_rejection (w : World) (this : loc)
  (o : CollectionRefObject) (id : string) (e : Exn) :
  heap w !! this = Some (CellCollectionRef o) →
  let docRef := doc_ (cr_ref o) id in
  getDoc_response (log w ++ [call_doc docRef]) docRef = Throw e →
  CR.get this id w =
    (Throw e,
     {| heap := heap w;
        log := log w ++ [call_doc docRef; call_getDoc docRef] |}).
Proof.
  intros Hthis docRef Hresp. unfold CR.get.
  rewrite (bind_Return _ _ _ _ _ (doc_run _ _ _ id Hthis)).
  rewrite bind_unfold. unfold sdk_getDoc, round_trip. cbn [heap log].
  fold docRef. rewrite Hresp. by rewrite <- app_assoc.
Qed.

(** X18.  A resolver obtained from [subCollection] writes under the parent
    document and prepares its payloads with the schema of the declared
    entry: a full [set] on it calls [setDoc] on the document [id] of the
    collection [subCollectionId] under the document [parentId], with the
    defaults of the entry's schema ([withDefaults]) and not those of the
    parent's. *)
Theorem subCollection_then_set (w : World) (this : loc)
  (o : CollectionRefObject) (parentId subCollectionId id : string)
  (subSchema : option CollectionSchema) (def : SubCollectionDef)
  (cls : CollectionClass) (data : gmap string value) :
  heap w !! this = Some (CellCollectionRef o) →
  CR.declares o subCollectionId def →
  collectionClass def = Some cls →
  let parentDocRef := doc_ (cr_ref o) parentId in
  let ref := collection_sub parentDocRef subCollectionId in
  let docRef := doc_ ref id in
  let dataToWrite := CR.withDefaults (schema def) data in
  let before :=
    log w ++ [call_doc parentDocRef;
              call_new cls (cr_firestore o) subCollectionId (schema def)
                (Some parentDocRef);
              call_collection ref;
              call_doc docRef]
      ++ replicate (CR.timestamps_wanted (schema def) data)
           (call_fieldValue serverTimestamp_) in
  ∃ w',
    (sub ← CR.subCollection this parentId subCollectionId subSchema;
     CR.set sub id data None) w
    = (setDoc_response before docRef dataToWrite ∅, w')
    ∧ log w' = before ++ [call_setDoc docRef dataToWrite ∅].
Proof.
  intros Hthis Hdef Hcls parentDocRef ref docRef dataToWrite before.
  rewrite (bind_Return _ _ _ _ _
             (subCollection_run w this o parentId subCollectionId subSchema
                def cls Hthis Hdef Hcls)).
  erewrite set_run; [|cbn [heap]; apply lookup_insert_eq].
  cbn [cr_ref cr_schema CR.isMerge heap log default].
  subst before dataToWrite docRef ref parentDocRef.
  eexists. rewrite <- !app_assoc. cbn [app]. split; reflexivity.
Qed.

(** X19.  [subCollection] keeps no instance: a second call with the same
    arguments instantiates the class again and returns another location,
    and both locations hold an instance with the same properties. *)
Theorem subCollection_is_not_memoized (w : World) (this : loc)
  (o : CollectionRefObject) (parentId subCollectionId : string)
  (subSchema : option CollectionSchema) (def : SubCollectionDef)
  (cls : CollectionClass) :
  heap w !! this = Some (CellCollectionRef o) →
  CR.declares o subCollectionId def →
  collectionClass def = Some cls →
  let parentDocRef := doc_ (cr_ref o) parentId in
  let calls := [call_doc parentDocRef;
                call_new cls (cr_firestore o) subCollectionId (schema def)
                  (Some parentDocRef);
                call_collection (collection_sub parentDocRef subCollectionId)]
  in
  ∃ r1 w1 r2 w2 instance,
    CR.subCollection this parentId subCollectionId subSchema w
      = (Return r1, w1)
    ∧ CR.subCollection this parentId subCollectionId subSchema w1
      = (Return r2, w2)
    ∧ r1 ≠ r2
    ∧ heap w2 !! r1 = Some (CellCollectionRef instance)
    ∧ heap w2 !! r2 = Some (CellCollectionRef instance)
    ∧ log w2 = log w ++ calls ++ calls.
Proof.
  intros Hthis Hdef Hcls parentDocRef calls.
  pose proof (subCollection_run w this o parentId subCollectionId subSchema
                def cls Hthis Hdef Hcls) as Hrun1.
  cbn zeta in Hrun1.
  set (r1 := fresh (dom (heap w))) in *.
  assert (Hr1 : heap w !! r1 = None) by apply fresh_heap_None.
  match type of Hrun1 with _ = (_, ?x) => set (w1 := x) in * end.
  assert (Hthis1 : heap w1 !! this = Some (CellCollectionRef o)).
  { cbn. rewrite lookup_insert_ne; [done|]. congruence. }
  pose proof (subCollection_run w1 this o parentId subCollectionId subSchema
                def cls Hthis1 Hdef Hcls) as Hrun2.
  cbn zeta in Hrun2.
  set (r2 := fresh (dom (heap w1))) in *.
  assert (Hr2 : heap w1 !! r2 = None) by apply fresh_heap_None.
  assert (Hne : r1 ≠ r2).
  { intros E. rewrite <- E in Hr2. cbn in Hr2.
    by rewrite lookup_insert_eq in Hr2. }
  eexists r1, w1, r2, _, _.
  split_and!; [exact Hrun1|exact Hrun2|exact Hne| | |].
  - cbn [heap]. rewrite lookup_insert_ne; [|done]. apply lookup_insert_eq.
  - cbn [heap]. apply lookup_insert_eq.
  - subst w1 calls parentDocRef. cbn [log]. by rewrite <- app_assoc.
Qed.

(** X20.  A resolver constructed without a parent reference adds its
    documents to the collection of that name at the root of the database; a
    resolver constructed with one adds them to the collection of that name
    under the parent document.  In both cases [add] sends the payload with
    the defaults of the schema given to the constructor ([withDefaults]),
    and resolves with the reference the store returns. *)
Theorem new_then_add (cls : option CollectionClass) (firestore : Firestore)
  (collectionId : string) (schema : option CollectionSchema)
  (parentRef : option DocumentReference) (data : gmap string value)
  (w : World) :
  let ref := match parentRef with
             | Some parentRef => collection_sub parentRef collectionId
             | None => collection_root firestore collectionId
             end in
  let dataToWrite := CR.withDefaults schema data in
  let before :=
    log w ++ [call_collection ref]
      ++ replicate (CR.timestamps_wanted schema data)
           (call_fieldValue serverTimestamp_) in
  ∃ w',
    (c ← CR.new cls firestore collectionId schema parentRef; CR.add c data) w
    = (addDoc_response before ref dataToWrite, w')
    ∧ log w' = before ++ [call_addDoc ref dataToWrite].
Proof.
  intros ref dataToWrite before.
  rewrite (bind_Return _ _ _ _ _
             (new_collectionRef_run cls firestore collectionId schema parentRef w)).
  fold ref. unfold CR.add.
  erewrite bind_Return;
    [|apply applyDefaults_run; cbn [heap]; apply lookup_insert_eq].
  erewrite bind_Return;
    [|apply load_collectionRef_Some; cbn [heap]; apply lookup_insert_eq].
  cbn [cr_ref cr_schema]. unfold sdk_addDoc, round_trip. cbn [heap log].
  fold dataToWrite. eexists. subst before.
  split; [by rewrite <- !app_assoc|by rewrite <- !app_assoc].
Qed.

End terminal.

Lemma delete_deletes_without_reading_witness :
  let d := doc_ (collection_root Mock.firestore "users") "missing-id" in
  CR.delete (remote := Mock.store) 1%positive "missing-id" Mock.world =
    (Return (),
     {| heap := heap Mock.world; log := [call_doc d; call_deleteDoc d] |}).
Proof.
  exact (delete_deletes_without_reading (remote := Mock.store)
           Mock.world 1%positive Mock.users "missing-id" eq_refl).
Defined.

Lemma applyDefaults_leaves_complete_payloads_alone_witness :
  CR.applyDefaults 1%positive
    {[ "role" := VString "admin"; "createdAt" := VHost 1 ]} Mock.world
  = (Return {[ "role" := VString "admin"; "createdAt" := VHost 1 ]},
     Mock.world)
  ∧ CR.applyDefaults 2%positive {[ "level" := VNumber 3 ]}
      Mock.settings_world
    = (Return {[ "level" := VNumber 3 ]}, Mock.settings_world).
Proof.
  split.
  - apply (applyDefaults_leaves_complete_payloads_alone
             Mock.world 1%positive Mock.users); [reflexivity|].
    intros schema k fieldDef [= <-] Hk Hd Ho.
    unfold Mock.userSchema in Hk. cbn [fields] in Hk.
    apply lookup_insert_Some in Hk as [[<- <-]|[_ Hk]]; [done|].
    apply lookup_insert_Some in Hk as [[<- <-]|[_ Hk]];
      [vm_compute in Ho; discriminate|].
    apply lookup_singleton_Some in Hk as [<- <-].
    vm_compute in Ho. discriminate.
  - apply (applyDefaults_leaves_complete_payloads_alone
             Mock.settings_world 2%positive Mock.logs); [reflexivity|].
    by intros schema k fieldDef [=].
Defined.

Lemma applyDefaults_fields_witness :
  (∃ out w',
     CR.applyDefaults 1%positive {[ "name" := VString "a" ]} Mock.world
       = (Return out, w')
     ∧ is_Some (out !! "name")
     ∧ is_Some (out !! "role")
     ∧ ¬ is_Some (out !! "age"))
  ∧ (∃ out w',
       CR.applyDefaults 1%positive ∅ Mock.audit_world = (Return out, w')
       ∧ is_Some (out !! "note")
       ∧ ¬ is_Some (out !! "toString")).
Proof.
  split.
  - destruct (applyDefaults_fields Mock.world 1%positive Mock.users
                {[ "name" := VString "a" ]} eq_refl)
      as (out & w' & Hrun & Hfields).
    exists out, w'. split_and!; [exact Hrun| | |].
    + apply Hfields. left. exists (VString "a"). vm_compute. reflexivity.
    + apply Hfields. right. exists {| defaultValue := VString "guest" |}.
      split_and!; [vm_compute; reflexivity|discriminate|].
      apply Object_prototype_None. vm_compute. reflexivity.
    + intros [[v Hin]|(fieldDef & Hk & _)]%Hfields.
      * vm_compute in Hin. discriminate.
      * vm_compute in Hk. discriminate.
  - destruct (applyDefaults_fields Mock.audit_world 1%positive Mock.audit
                ∅ eq_refl)
      as (out & w' & Hrun & Hfields).
    exists out, w'. split_and!; [exact Hrun| |].
    + apply Hfields. right. exists {| defaultValue := VString "n" |}.
      split_and!; [vm_compute; reflexivity|discriminate|].
      apply Object_prototype_None. vm_compute. reflexivity.
    + intros [[v Hin]|(fieldDef & _ & _ & Hp)]%Hfields.
      * vm_compute in Hin. discriminate.
      * apply Object_prototype_None in Hp. vm_compute in Hp. discriminate.
Defined.

Lemma applyDefaults_takes_undefined_for_omitted_witness :
  ∃ out w',
    CR.applyDefaults 1%positive
      {[ "name" := VString "a"; "role" := VUndefined ]} Mock.world
      = (Return out, w')
    ∧ out !! "role" = Some (VString "guest").
Proof.
  destruct (applyDefaults_takes_undefined_for_omitted Mock.world 1%positive
              Mock.users {[ "name" := VString "a"; "role" := VUndefined ]}
              "role" eq_refl)
    as (out & w' & Hrun & Hinject & _); [vm_compute; reflexivity|].
  exists out, w'. split; [exact Hrun|].
  apply (Hinject Mock.userSchema {| defaultValue := VString "guest" |});
    [reflexivity|vm_compute; reflexivity|discriminate].
Defined.

Lemma applyDefaults_injects_literals_witness :
  ∃ out w',
    CR.applyDefaults 1%positive ∅ Mock.settings_world = (Return out, w')
    ∧ out !! "enabled" = Some (VBool false).
Proof.
  apply (applyDefaults_injects_literals Mock.settings_world 1%positive
           Mock.settings ∅ "enabled" Mock.settingsSchema
           {| defaultValue := VBool false |});
    [reflexivity|reflexivity|vm_compute; reflexivity|discriminate
    |discriminate|vm_compute; reflexivity].
Defined.

Lemma serverTimestamp_directive_witness :
  ∃ out w',
    CR.applyDefaults 1%positive {[ "name" := VString "a" ]} Mock.world
      = (Return out, w')
    ∧ out !! "createdAt" = Some (VFieldValue serverTimestamp_)
    ∧ out !! "role" ≠ Some (VString "serverTimestamp").
Proof.
  destruct (serverTimestamp_directive_injects_the_sentinel
              Mock.world 1%positive Mock.users {[ "name" := VString "a" ]}
              "createdAt" eq_refl)
    as (out & w' & Hrun & Hinject & Hnot).
  - vm_compute. reflexivity.
  - exists out, w'. split_and!; [exact Hrun| |].
    + apply (Hinject Mock.userSchema
               {| defaultValue := VString "serverTimestamp" |});
        [reflexivity|vm_compute; reflexivity|reflexivity].
    + intros Hin%Hnot. vm_compute in Hin. discriminate.
Defined.

Lemma applyDefaults_skips_inherited_names_witness :
  ∃ out w',
    CR.applyDefaults 1%positive ∅ Mock.audit_world = (Return out, w')
    ∧ out !! "toString" = None.
Proof.
  destruct (applyDefaults_skips_inherited_names Mock.audit_world 1%positive
              Mock.audit ∅ "toString" eq_refl)
    as (out & w' & Hrun & Hnone & _).
  - apply (bool_decide_eq_true_1 ("toString" ∈ Object_prototype_names)).
    vm_compute. reflexivity.
  - vm_compute. reflexivity.
  - exists out, w'. split; [exact Hrun|exact Hnone].
Defined.

Lemma get_relays_a_rejection_witness :
  let d := doc_ (collection_root Mock.firestore "users") "doc-1" in
  CR.get (remote := Mock.offline) 1%positive "doc-1" Mock.world =
    (Throw (StoreError "unavailable"),
     {| heap := heap Mock.world; log := [call_doc d; call_getDoc d] |}).
Proof.
  exact (get_relays_a_rejection (remote := Mock.offline)
           Mock.world 1%positive Mock.users "doc-1" _ eq_refl eq_refl).
Defined.

Lemma subCollection_then_set_witness :
  let parent := doc_ (collection_root Mock.firestore "users") "u1" in
  let d := doc_ (collection_sub parent "comments") "c1" in
  ∃ w',
    (sub ← CR.subCollection (remote := Mock.store) 1%positive "u1"
             "comments" None;
     CR.set (remote := Mock.store) sub "c1" {[ "text" := VString "hi" ]}
       None) Mock.world = (Return (), w')
    ∧ log w' = [call_doc parent;
                call_new Mock.CommentsRef Mock.firestore "comments"
                  (Some Mock.commentSchema) (Some parent);
                call_collection (collection_sub parent "comments");
                call_doc d;
                call_setDoc d {[ "text" := VString "hi" ]} ∅].
Proof.
  intros parent d.
  destruct (subCollection_then_set (remote := Mock.store) Mock.world
              1%positive Mock.users "u1" "comments" "c1" None _
              Mock.CommentsRef {[ "text" := VString "hi" ]}
              eq_refl users_declares_comments eq_refl)
    as (w' & Hrun & Hlog).
  exists w'. split.
  - etrans; [exact Hrun|]. reflexivity.
  - rewrite Hlog. vm_compute. reflexivity.
Defined.

Lemma subCollection_is_not_memoized_witness :
  ∃ r1 w1 r2 w2 instance,
    CR.subCollection (remote := Mock.store) 1%positive "u1" "comments" None
      Mock.world = (Return r1, w1)
    ∧ CR.subCollection (remote := Mock.store) 1%positive "u1" "comments"
        None w1 = (Return r2, w2)
    ∧ r1 ≠ r2
    ∧ heap w2 !! r1 = Some (CellCollectionRef instance)
    ∧ heap w2 !! r2 = Some (CellCollectionRef instance)
    ∧ length (log w2) = 6.
Proof.
  destruct (subCollection_is_not_memoized (remote := Mock.store) Mock.world
              1%positive Mock.users "u1" "comments" None _ Mock.CommentsRef
              eq_refl users_declares_comments eq_refl)
    as (r1 & w1 & r2 & w2 & instance & H1 & H2 & Hne & Hr1 & Hr2 & Hlog).
  exists r1, w1, r2, w2, instance. split_and!; try done.
  by rewrite Hlog.
Defined.

End CollectionRefMore.
